(** * Sound Therapy: the audio lifecycle of the player and of the mixer

    A shallow embedding of the two React components that own audio
    resources: [SoundPlayer] (one channel with a timer) and [SoundBoard]
    (four mixer slots).  Event handlers become computations in a small
    state-and-exception monad over the component state; every call into
    Tone.js or the browser is appended to a log, so that the order of
    [stop], [dispose] and [start] calls can be stated and proved.

    Conventions of the embedding:
    - a state update [setX(v)] or [setSlots(prev => ...)] is applied at
      the point where the handler issues it, except where a handler reads
      a value captured by its closure (those reads use the state the
      handler started with);
    - a handler runs to completion except at [await audioPlayer.load],
      where [SoundBoard.loadSound] is cut in two so that other handlers
      can run in between;
    - console logging, the wake lock, the loading progress bar and
      [onFrequencyChange] have no influence on audio state and are left
      out, except for the console warning that reports a failed load. *)

From Stdlib Require Import QArith Qminmax Lqa DecimalString DecimalZ.
From stdpp Require Import base list strings.
From Equations Require Import Equations.

Set Default Proof Using "Type".

(** ** JavaScript values used by both components *)

(** [number | 'pink' | 'brown' | 'green' | 'white' | 'bath' | { type: 'file'; path }] *)
Inductive NoiseName := pink | brown | green | white | bath.

Inductive SoundType :=
| Frequency (hz : Z)
| Noise (name : NoiseName)
| AudioFile (path : string).

(** Truthiness of a [SoundType | null | undefined] value: a zero
    frequency is falsy, names and objects are truthy. *)
Definition truthy (soundDef : option SoundType) : bool :=
  match soundDef with
  | None => false
  | Some (Frequency hz) => negb (hz =? 0)%Z
  | Some _ => true
  end.

Definition SOUNDS : list (string * SoundType) :=
  [ ("174 Hz (Grounding)", AudioFile "/174hz.mp3");
    ("285 Hz (Tissue Regeneration)", AudioFile "/285hz.mp3");
    ("396 Hz (Release Fear)", AudioFile "/396hz.mp3");
    ("417 Hz (Clear Negativity)", AudioFile "/417hz.mp3");
    ("528 Hz (Love/Miracle)", AudioFile "/528hz.mp3");
    ("639 Hz (Emotional Harmony)", AudioFile "/639hz.mp3");
    ("741 Hz (Detoxification)", AudioFile "/741hz.mp3");
    ("852 Hz (Third Eye)", AudioFile "/852hz.mp3");
    ("963 Hz (Crown Chakra)", AudioFile "/963hz.mp3");
    ("Pink Noise", AudioFile "/pink-noise.mp3");
    ("Brown Noise", AudioFile "/brown-noise.mp3");
    ("White Noise", AudioFile "/white-noise.mp3");
    ("Green Noise", Noise green);
    ("Green Noise 2", Noise green);
    ("Deschutes River", AudioFile "/deschutes-river.mp3");
    ("Lovejoy Fountain", AudioFile "/lovejoy-fountain.mp3");
    ("Multnomah Falls", AudioFile "/multnomah-falls.mp3");
    ("Spring Rain", AudioFile "/spring-rain.mp3");
    ("Tucson Stream", AudioFile "/tucson-stream.mp3");
    ("Wind Chimes", AudioFile "/wind-chimes.mp3");
    ("Cat Purr", AudioFile "/cat-purr.mp3");
    ("Wind", AudioFile "/wind.mp3");
    ("Bath Sound", Noise bath);
    ("Healing (432 Hz)", Frequency 432);
    ("Mental Clarity (825 Hz)", Frequency 825);
    ("Alpha Waves", Frequency 12);
    ("Theta Waves", Frequency 6) ].

(** [SOUNDS[name]] *)
Fixpoint lookup_sound (catalog : list (string * SoundType)) (name : string)
  : option SoundType :=
  match catalog with
  | [] => None
  | (label, soundDef) :: rest =>
      if String.eqb label name then Some soundDef else lookup_sound rest name
  end.

(** A thrown value: an [Error] object or any other value, kept by its
    string conversion. *)
Inductive JsValue :=
| ErrorObject (message : string)
| Primitive (text : string).

(** [e instanceof Error ? e.message : String(e)] *)
Definition message_of (e : JsValue) : string :=
  match e with
  | ErrorObject message => message
  | Primitive text => text
  end.

(** [haystack.includes(needle)] *)
Fixpoint includes (needle haystack : string) : bool :=
  String.prefix needle haystack
  || match haystack with
     | EmptyString => false
     | String _ rest => includes needle rest
     end.

(** A JavaScript number as far as [buffer.duration] is inspected. *)
Inductive JsNumber := NaN | Finite (q : Q).

(** [duration === 0 || isNaN(duration)] *)
Definition invalid_duration (duration : JsNumber) : bool :=
  match duration with
  | NaN => true
  | Finite q => Qeq_bool q 0
  end.

(** The value of a [Tone.Volume] node, in decibels. *)
Inductive Level := NegInfinity | Decibels (v : Q).

(** ** The audio library and the browser, as a log of calls *)

(** Audio nodes are objects; a handle is the identity of one. *)
Definition Handle := nat.

Inductive FilterType := bandpass | lowpass.

Inductive Target :=
| VolumeNode (index : nat)
| FilterNode (filter : Handle).

Inductive TimerCallback := CountDown | CountUp.

Inductive Call :=
| NewOscillator (h : Handle) (frequency : Z)
| NewNoise (h : Handle) (type : NoiseName)
| NewFilter (h : Handle) (frequency : Z) (type : FilterType) (resonance : Z)
| NewPlayer (h : Handle) (url : string)
| Connect (h : Handle) (destination : Target)
| Load (h : Handle) (url : string)
| Start (h : Handle)
| Stop (h : Handle)
| Dispose (h : Handle)
| SetInterval (timerId : nat) (callback : TimerCallback)
| ClearInterval (timerId : nat)
| Alert (message : string)
| ConsoleWarn (message : string).

Record Browser := {
  next_handle : Handle;
  next_timer : nat;
  timers : list (nat * TimerCallback);
  calls : list Call;
}.

Definition fresh_browser : Browser :=
  {| next_handle := 0; next_timer := 1; timers := []; calls := [] |}.

(** What the outside world does during one attempt to start a sound. *)
Record Env := {
  (** [Tone.start()] rejects with this value *)
  context_start : option JsValue;
  (** a Tone.js constructor throws this value *)
  construct : option JsValue;
  (** [audioPlayer.load(url)] rejects with this value *)
  fetch : option JsValue;
  (** [audioPlayer.buffer && audioPlayer.buffer.loaded], observed [t]
      tenths of a second after [load] has settled *)
  loaded_at : nat -> bool;
  (** [audioPlayer.buffer.duration] *)
  duration : JsNumber;
}.

(** Two environments for examples: one in which everything works and
    the file is decoded at once, and one in which the file is not found. *)
Definition loads_well : Env :=
  {| context_start := None; construct := None; fetch := None;
     loaded_at := fun _ => true; duration := Finite (180 # 1)%Q |}.

Definition not_found : Env :=
  {| context_start := None; construct := None;
     fetch := Some (ErrorObject "Failed to fetch: 404 (Not Found)");
     loaded_at := fun _ => false; duration := NaN |}.

Definition loads_slowly : Env :=
  {| context_start := None; construct := None; fetch := None;
     loaded_at := fun t => 3 <=? t; duration := Finite (180 # 1)%Q |}.

Definition never_loads : Env :=
  {| context_start := None; construct := None; fetch := None;
     loaded_at := fun _ => false; duration := Finite (180 # 1)%Q |}.

Definition empty_file : Env :=
  {| context_start := None; construct := None; fetch := None;
     loaded_at := fun _ => true; duration := Finite 0 |}.

(** ** A state monad with exceptions *)

Inductive Result (A : Type) :=
| Returned (a : A)
| Thrown (e : JsValue).
Arguments Returned {A} a.
Arguments Thrown {A} e.

Definition M (S A : Type) : Type := S -> Result A * S.

Class Hosted (S : Type) := {
  browser : S -> Browser;
  with_browser : Browser -> S -> S;
}.

Section Monad.
Context {S : Type}.

Definition ret {A} (a : A) : M S A := fun s => (Returned a, s).

Definition bind {A B} (m : M S A) (k : A -> M S B) : M S B :=
  fun s =>
    match m s with
    | (Returned a, s') => k a s'
    | (Thrown e, s') => (Thrown e, s')
    end.

Definition throw {A} (e : JsValue) : M S A := fun s => (Thrown e, s).

(** [try { body } catch (e) { handler }] *)
Definition try_catch {A} (body : M S A) (handler : JsValue -> M S A) : M S A :=
  fun s =>
    match body s with
    | (Thrown e, s') => handler e s'
    | r => r
    end.

(** Runs [body] and hands its completion to the caller. *)
Definition attempt {A} (body : M S A) : M S (Result A) :=
  fun s => let '(r, s') := body s in (Returned r, s').

Definition get : M S S := fun s => (Returned s, s).

Definition modify (f : S -> S) : M S unit := fun s => (Returned tt, f s).

Definition state_after {A} (m : M S A) (s : S) : S := snd (m s).

Definition result_of {A} (m : M S A) (s : S) : Result A := fst (m s).

Context `{Hosted S}.

Definition log (c : Call) : Browser -> Browser :=
  fun w =>
    {| next_handle := next_handle w; next_timer := next_timer w;
       timers := timers w; calls := calls w ++ [c] |}.

Definition emit (c : Call) : M S unit :=
  modify (fun s => with_browser (log c (browser s)) s).

Definition allocate : M S Handle :=
  fun s =>
    let w := browser s in
    (Returned (next_handle w),
     with_browser
       {| next_handle := Datatypes.S (next_handle w); next_timer := next_timer w;
          timers := timers w; calls := calls w |} s).

(** [new Tone.X(...)]: throws when the environment says so, otherwise
    creates a node with a new identity. *)
Definition new_node (env : Env) (describe : Handle -> Call) : M S Handle :=
  match construct env with
  | Some e => throw e
  | None => bind allocate (fun h => bind (emit (describe h)) (fun _ => ret h))
  end.

(** [await Tone.start()] *)
Definition Tone_start (env : Env) : M S unit :=
  match context_start env with
  | Some e => throw e
  | None => ret tt
  end.

(** [node?.stop().dispose()], and
    [if (node) { node.stop(); node.dispose(); }] *)
Definition stop_and_dispose (node : option Handle) : M S unit :=
  match node with
  | Some h => bind (emit (Stop h)) (fun _ => emit (Dispose h))
  | None => ret tt
  end.

(** [node?.method()] *)
Definition optionally (method : Handle -> Call) (node : option Handle) : M S unit :=
  match node with
  | Some h => emit (method h)
  | None => ret tt
  end.

(** [setInterval(callback, 1000)]: registers the callback and returns
    its identifier. *)
Definition setInterval (callback : TimerCallback) : M S nat :=
  fun s =>
    let w := browser s in
    let timerId := next_timer w in
    (Returned timerId,
     with_browser
       {| next_handle := next_handle w; next_timer := Datatypes.S timerId;
          timers := (timerId, callback) :: timers w;
          calls := calls w ++ [SetInterval timerId callback] |} s).

(** [clearInterval(timerId)] *)
Definition clearInterval (timerId : nat) : M S unit :=
  modify (fun s =>
    let w := browser s in
    with_browser
      {| next_handle := next_handle w; next_timer := next_timer w;
         timers := List.filter (fun entry => negb (fst entry =? timerId)) (timers w);
         calls := calls w ++ [ClearInterval timerId] |} s).
End Monad.

Declare Scope js_scope.
Delimit Scope js_scope with js.
Notation "x <- m ;; k" := (bind m (fun x => k))
  (at level 100, m at next level, right associativity) : js_scope.
Notation "m ;; k" := (bind m (fun _ => k))
  (at level 100, right associativity) : js_scope.

(** ** Waiting for the decoded buffer

    [let attempts = 0;
     while ((!audioPlayer.buffer || !audioPlayer.buffer.loaded) && attempts < maxAttempts) {
       await new Promise(resolve => setTimeout(resolve, 100));
       attempts++;
     }]
    Each turn waits a tenth of a second, so the buffer is observed at time
    [attempts].  The function returns the value of [attempts] when the
    loop is left. *)

Definition maxAttempts : nat := 50.

Equations? wait_for_buffer (loaded : nat -> bool) (attempts : nat) : nat
  by wf (maxAttempts - attempts) lt :=
  wait_for_buffer loaded attempts with loaded attempts := {
    | true => attempts;
    | false with lt_dec attempts maxAttempts := {
      | left below => wait_for_buffer loaded (Datatypes.S attempts);
      | right _ => attempts } }.
Proof. unfold maxAttempts in *. lia. Qed.

Open Scope js_scope.

(** ** Noise sources, as both components build them

    [green] and [bath] are not noise types of Tone.js: they are pink and
    brown noise behind a filter.  The function returns the noise
    generator and the filter, if one was created. *)
Section Noise.
Context {S : Type} `{Hosted S}.

Definition create_noise (env : Env) (volumeControl : nat) (soundDef : NoiseName)
  : M S (Handle * option Handle) :=
  match soundDef with
  | green =>
      noiseGen <- new_node env (fun h => NewNoise h pink) ;;
      filter <- new_node env (fun h => NewFilter h 500 bandpass 2) ;;
      emit (Connect noiseGen (FilterNode filter)) ;;
      emit (Connect filter (VolumeNode volumeControl)) ;;
      ret (noiseGen, Some filter)
  | bath =>
      noiseGen <- new_node env (fun h => NewNoise h brown) ;;
      filter <- new_node env (fun h => NewFilter h 800 lowpass 1) ;;
      emit (Connect noiseGen (FilterNode filter)) ;;
      emit (Connect filter (VolumeNode volumeControl)) ;;
      ret (noiseGen, Some filter)
  | _ =>
      noiseGen <- new_node env (fun h => NewNoise h soundDef) ;;
      emit (Connect noiseGen (VolumeNode volumeControl)) ;;
      ret (noiseGen, None)
  end.
End Noise.

(** [await audioPlayer.load(url)] settles; a rejection that mentions
    decoding is replaced by an error that names the file. *)
Definition settle_load {S : Type} (env : Env) (path : string) : M S unit :=
  match fetch env with
  | None => ret tt
  | Some loadError =>
      let errorMsg := message_of loadError in
      if includes "decode" errorMsg || includes "DecodeError" errorMsg
         || includes "Unable to decode" errorMsg
      then throw (ErrorObject
                    ("Unable to decode audio file: " +:+ path +:+
                     ". The file may be corrupted, in an unsupported format, or not a valid MP3 file."))
      else throw loadError
  end.

Definition buffer_not_loaded (path : string) : JsValue :=
  ErrorObject ("Buffer did not load successfully for " +:+ path +:+
               ". File may not exist (404) or is corrupted.").

Definition invalid_duration_error (path : string) : JsValue :=
  ErrorObject ("Audio file " +:+ path +:+
               " has invalid duration. File may be corrupted or empty.").

Definition newline : string := String (Ascii.ascii_of_nat 10) EmptyString.

(** ** Reading the log *)

(** The calls made between two states of the browser. *)
Definition new_calls (before after : Browser) : list Call :=
  drop (length (calls before)) (calls after).

(** The audio nodes that a call creates, connects or drives. *)
Definition subjects (c : Call) : list Handle :=
  match c with
  | NewOscillator h _ | NewNoise h _ | NewFilter h _ _ _ | NewPlayer h _
  | Load h _ | Start h | Stop h | Dispose h => [h]
  | Connect h (FilterNode filter) => [h; filter]
  | Connect h (VolumeNode _) => [h]
  | SetInterval _ _ | ClearInterval _ | Alert _ | ConsoleWarn _ => []
  end.

(** The volume nodes that a call connects to. *)
Definition volume_nodes (c : Call) : list nat :=
  match c with
  | Connect _ (VolumeNode index) => [index]
  | _ => []
  end.

Definition is_alert (c : Call) : bool :=
  match c with Alert _ => true | _ => false end.

(** [duration] is a number other than [0] and [NaN]. *)
Definition valid_duration (duration : JsNumber) : Prop :=
  exists q, duration = Finite q /\ ~ (q == 0)%Q.

(** The ways in which loading a file fails: the player cannot be
    built, the request or the decoding is rejected, the buffer never
    reports that it is loaded, or it has no valid duration. *)
Definition load_fails (env : Env) : Prop :=
  is_Some (construct env) \/ is_Some (fetch env)
  \/ (forall t, loaded_at env t = false)
  \/ invalid_duration (duration env) = true.

(** ** The mixer (SoundBoard) *)
Module SoundBoard.

Record SoundSlot := {
  id : nat;
  soundName : option string;
  soundDef : option SoundType;
  isPlaying : bool;
  isLoading : bool;
  volume : Q;
  isMuted : bool;
  oscillator : option Handle;
  noise : option Handle;
  player : option Handle;
  filter : option Handle;
}.

(** Object spread with one overridden property: [{ ...s, field: v }]. *)
Definition set_soundName (v : option string) (s : SoundSlot) : SoundSlot :=
  {| id := id s; soundName := v; soundDef := soundDef s; isPlaying := isPlaying s;
     isLoading := isLoading s; volume := volume s; isMuted := isMuted s;
     oscillator := oscillator s; noise := noise s; player := player s; filter := filter s |}.
Definition set_soundDef (v : option SoundType) (s : SoundSlot) : SoundSlot :=
  {| id := id s; soundName := soundName s; soundDef := v; isPlaying := isPlaying s;
     isLoading := isLoading s; volume := volume s; isMuted := isMuted s;
     oscillator := oscillator s; noise := noise s; player := player s; filter := filter s |}.
Definition set_isPlaying (v : bool) (s : SoundSlot) : SoundSlot :=
  {| id := id s; soundName := soundName s; soundDef := soundDef s; isPlaying := v;
     isLoading := isLoading s; volume := volume s; isMuted := isMuted s;
     oscillator := oscillator s; noise := noise s; player := player s; filter := filter s |}.
Definition set_isLoading (v : bool) (s : SoundSlot) : SoundSlot :=
  {| id := id s; soundName := soundName s; soundDef := soundDef s; isPlaying := isPlaying s;
     isLoading := v; volume := volume s; isMuted := isMuted s;
     oscillator := oscillator s; noise := noise s; player := player s; filter := filter s |}.
Definition set_volume (v : Q) (s : SoundSlot) : SoundSlot :=
  {| id := id s; soundName := soundName s; soundDef := soundDef s; isPlaying := isPlaying s;
     isLoading := isLoading s; volume := v; isMuted := isMuted s;
     oscillator := oscillator s; noise := noise s; player := player s; filter := filter s |}.
Definition set_isMuted (v : bool) (s : SoundSlot) : SoundSlot :=
  {| id := id s; soundName := soundName s; soundDef := soundDef s; isPlaying := isPlaying s;
     isLoading := isLoading s; volume := volume s; isMuted := v;
     oscillator := oscillator s; noise := noise s; player := player s; filter := filter s |}.
Definition set_oscillator (v : option Handle) (s : SoundSlot) : SoundSlot :=
  {| id := id s; soundName := soundName s; soundDef := soundDef s; isPlaying := isPlaying s;
     isLoading := isLoading s; volume := volume s; isMuted := isMuted s;
     oscillator := v; noise := noise s; player := player s; filter := filter s |}.
Definition set_noise (v : option Handle) (s : SoundSlot) : SoundSlot :=
  {| id := id s; soundName := soundName s; soundDef := soundDef s; isPlaying := isPlaying s;
     isLoading := isLoading s; volume := volume s; isMuted := isMuted s;
     oscillator := oscillator s; noise := v; player := player s; filter := filter s |}.
Definition set_player (v : option Handle) (s : SoundSlot) : SoundSlot :=
  {| id := id s; soundName := soundName s; soundDef := soundDef s; isPlaying := isPlaying s;
     isLoading := isLoading s; volume := volume s; isMuted := isMuted s;
     oscillator := oscillator s; noise := noise s; player := v; filter := filter s |}.
Definition set_filter (v : option Handle) (s : SoundSlot) : SoundSlot :=
  {| id := id s; soundName := soundName s; soundDef := soundDef s; isPlaying := isPlaying s;
     isLoading := isLoading s; volume := volume s; isMuted := isMuted s;
     oscillator := oscillator s; noise := noise s; player := player s; filter := v |}.

(** The component state: the [slots] array, the [Tone.Volume] node of
    each slot ([volumeControlsRef], by the value of its [volume]
    parameter), and the log of library calls. *)
Record Board := {
  slots : list SoundSlot;
  volumeControls : list Level;
  world : Browser;
}.

#[export] Instance Board_hosted : Hosted Board := {|
  browser := world;
  with_browser w b := {| slots := slots b; volumeControls := volumeControls b; world := w |};
|}.

Definition empty_slot (slotId : nat) : SoundSlot :=
  {| id := slotId; soundName := None; soundDef := None; isPlaying := false;
     isLoading := false; volume := (-12 # 1)%Q; isMuted := false;
     oscillator := None; noise := None; player := None; filter := None |}.

(** The state after mounting: four empty slots, and
    [slots.map(() => new Tone.Volume(-12).toDestination())]. *)
Definition mounted : Board :=
  {| slots := [empty_slot 1; empty_slot 2; empty_slot 3; empty_slot 4];
     volumeControls := (fun _ => Decibels (-12 # 1)%Q) <$> [1; 2; 3; 4];
     world := fresh_browser |}.

(** [array[slotId - 1]]: index [-1] holds nothing. *)
Definition element {A : Type} (array : list A) (slotId : nat) : option A :=
  match slotId with
  | 0 => None
  | Datatypes.S slotIndex => array !! slotIndex
  end.

Definition setSlots (update : list SoundSlot -> list SoundSlot) : M Board unit :=
  modify (fun b =>
    {| slots := update (slots b); volumeControls := volumeControls b; world := world b |}).

(** [prev.map(s => s.id === slotId ? change(s) : s)] *)
Definition for_slot (slotId : nat) (change : SoundSlot -> SoundSlot)
  (prev : list SoundSlot) : list SoundSlot :=
  (fun s => if id s =? slotId then change s else s) <$> prev.

(** [const slot = prev[slotIndex]]; reading a property of [undefined]
    throws. *)
Definition slot_of (slotId : nat) : M Board SoundSlot :=
  b <- get ;;
  match element (slots b) slotId with
  | Some slot => ret slot
  | None => throw (ErrorObject "Cannot read properties of undefined")
  end.

(** [volumeControl.volume.value = v], under [if (volumeControl)]. *)
Definition set_volume_control (slotId : nat) (v : Level) : M Board unit :=
  modify (fun b =>
    match slotId with
    | 0 => b
    | Datatypes.S slotIndex =>
        {| slots := slots b; volumeControls := <[slotIndex := v]> (volumeControls b);
           world := world b |}
    end).

(** Stops and disposes whatever the slot holds. *)
Definition release (slot : SoundSlot) : M Board unit :=
  stop_and_dispose (oscillator slot) ;;
  stop_and_dispose (noise slot) ;;
  stop_and_dispose (player slot) ;;
  optionally Dispose (filter slot).

Definition alert_text (soundName filePath errorMessage : string) : string :=
  "Could not load: " +:+ soundName +:+ newline +:+ newline +:+
  "File path: " +:+ filePath +:+ newline +:+ newline +:+
  "Error: " +:+ errorMessage +:+ newline +:+ newline +:+
  "Please ensure the file exists in the /public folder and is a valid MP3 file.".

(** The outer [catch (error)] of [loadSound]. *)
Definition load_failed (slotId : nat) (soundName : string) (soundDef : SoundType)
  (error : JsValue) : M Board unit :=
  let errorMessage := message_of error in
  let filePath := match soundDef with AudioFile path => path | _ => "N/A" end in
  setSlots (for_slot slotId (fun s =>
    set_player None (set_soundDef None (set_soundName None
      (set_isPlaying false (set_isLoading false s)))))) ;;
  emit (Alert (alert_text soundName filePath errorMessage)).

(** The inner [catch (playerError)] of the file branch: always rethrows. *)
Definition player_failed {A : Type} (path : string) (playerError : JsValue)
  : M Board A :=
  let errorMsg := message_of playerError in
  if includes "decode" errorMsg || includes "DecodeError" errorMsg
  then throw (ErrorObject
                ("Unable to decode: " +:+ path +:+
                 ". Please ensure the file is a valid MP3 audio file."))
  else throw playerError.

(** [loadSound] up to the point where it waits for
    [audioPlayer.load(soundDef.path)].  For a frequency or a noise this
    is the whole function and the result is [None]; for a file the
    result is the player whose load is pending. *)
Definition loadSound_begin (env : Env) (slotId : nat) (soundName : string)
  (soundDef : SoundType) : M Board (option Handle) :=
  b <- get ;;
  match element (volumeControls b) slotId with
  | None => ret None
  | Some _ =>
      let volumeControl := slotId - 1 in
      (* Stop any existing sound in this slot *)
      slot <- slot_of slotId ;;
      release slot ;;
      setSlots (for_slot slotId (fun s =>
        set_isPlaying false (set_soundDef (Some soundDef)
          (set_soundName (Some soundName) (set_isLoading true s))))) ;;
      try_catch
        (Tone_start env ;;
         match soundDef with
         | Frequency hz =>
             osc <- new_node env (fun h => NewOscillator h hz) ;;
             emit (Connect osc (VolumeNode volumeControl)) ;;
             setSlots (for_slot slotId (fun s =>
               set_isPlaying true (set_isLoading false (set_oscillator (Some osc) s)))) ;;
             emit (Start osc) ;;
             ret None
         | Noise name =>
             created <- create_noise env volumeControl name ;;
             let '(noiseGen, filter) := created in
             setSlots (for_slot slotId (fun s =>
               set_isPlaying true (set_isLoading false
                 (set_filter filter (set_noise (Some noiseGen) s))))) ;;
             emit (Start noiseGen) ;;
             ret None
         | AudioFile path =>
             try_catch
               (audioPlayer <- new_node env (fun h => NewPlayer h path) ;;
                emit (Connect audioPlayer (VolumeNode volumeControl)) ;;
                setSlots (for_slot slotId (set_player (Some audioPlayer))) ;;
                emit (Load audioPlayer path) ;;
                ret (Some audioPlayer))
               (player_failed path)
         end)
        (fun error => load_failed slotId soundName soundDef error ;; ret None)
  end.

(** [loadSound] from the point where [audioPlayer.load] has settled. *)
Definition loadSound_resume (env : Env) (slotId : nat) (soundName path : string)
  (audioPlayer : Handle) : M Board unit :=
  try_catch
    (try_catch
       (settle_load env path ;;
        (* Wait for buffer to be fully ready with retry logic *)
        let attempts := wait_for_buffer (loaded_at env) 0 in
        (* Final wait to ensure buffer is ready: 200 ms *)
        if negb (loaded_at env (attempts + 2)) then throw (buffer_not_loaded path)
        else if invalid_duration (duration env) then throw (invalid_duration_error path)
        else
          setSlots (for_slot slotId (fun s =>
            set_isPlaying true (set_isLoading false (set_player (Some audioPlayer) s)))) ;;
          emit (Start audioPlayer))
       (player_failed path))
    (load_failed slotId soundName (AudioFile path)).

Definition loadSound (env : Env) (slotId : nat) (soundName : string)
  (soundDef : SoundType) : M Board unit :=
  pending <- loadSound_begin env slotId soundName soundDef ;;
  match pending, soundDef with
  | Some audioPlayer, AudioFile path =>
      loadSound_resume env slotId soundName path audioPlayer
  | _, _ => ret tt
  end.

Definition toggleSlot (slotId : nat) : M Board unit :=
  slot <- slot_of slotId ;;
  if negb (truthy (soundDef slot)) then ret tt
  else if isPlaying slot then
    (* Stop *)
    optionally Stop (oscillator slot) ;;
    optionally Stop (noise slot) ;;
    optionally Stop (player slot) ;;
    setSlots (for_slot slotId (set_isPlaying false))
  else
    (* Start *)
    optionally Start (oscillator slot) ;;
    optionally Start (noise slot) ;;
    optionally Start (player slot) ;;
    setSlots (for_slot slotId (set_isPlaying true)).

Definition removeSound (slotId : nat) : M Board unit :=
  slot <- slot_of slotId ;;
  release slot ;;
  setSlots (for_slot slotId (fun s =>
    set_filter None (set_player None (set_noise None (set_oscillator None
      (set_isPlaying false (set_soundDef None (set_soundName None s)))))))).

Definition updateVolume (slotId : nat) (newVolume : Q) : M Board unit :=
  set_volume_control slotId (Decibels newVolume) ;;
  setSlots (for_slot slotId (fun s => set_isMuted false (set_volume newVolume s))).

Definition toggleMute (slotId : nat) : M Board unit :=
  slot <- slot_of slotId ;;
  set_volume_control slotId
    (if isMuted slot then Decibels (volume slot) else NegInfinity) ;;
  setSlots (for_slot slotId (fun s => set_isMuted (negb (isMuted s)) s)).

(** The controls of one channel strip, and whether the markup enables
    them ([disabled={...}], and [slot.soundName && <button ...>]). *)
Inductive Control := SoundSelect | PlayPause | Fader | MuteButton | RemoveButton.

Definition enabled (slot : SoundSlot) (control : Control) : bool :=
  match control with
  | SoundSelect => negb (isLoading slot)
  | PlayPause => negb (negb (truthy (soundDef slot)) || isLoading slot)
  | Fader => true
  | MuteButton => negb (negb (truthy (soundDef slot)))
  | RemoveButton =>
      match soundName slot with
      | Some name => negb (String.eqb name "")
      | None => false
      end
  end.

(** *** Notions used to state properties of the mixer *)

(** Slot [i] of the array has identifier [i + 1]. *)
Definition indexed (array : list SoundSlot) : Prop :=
  forall slotIndex slot, array !! slotIndex = Some slot -> id slot = Datatypes.S slotIndex.

(** Slot [i] of the array has identifier [i + 1], and the volume node of
    a slot carries the level that the slot displays. *)
Definition tuned (array : list SoundSlot) (controls : list Level) : Prop :=
  forall slotIndex slot, array !! slotIndex = Some slot ->
    id slot = Datatypes.S slotIndex
    /\ controls !! slotIndex
       = Some (if isMuted slot then NegInfinity else Decibels (volume slot)).

Definition well_formed (b : Board) : Prop := tuned (slots b) (volumeControls b).

(** The audio-source handles attached to a slot, and all its handles. *)
Definition sources (slot : SoundSlot) : list Handle :=
  option_list (oscillator slot) ++ option_list (noise slot) ++ option_list (player slot).

Definition handles (slot : SoundSlot) : list Handle :=
  sources slot ++ option_list (filter slot).

(** No audio node is held by two slots, and every node held by a slot
    has been created. *)
Definition separated (b : Board) : Prop :=
  (forall i j si sj h, i <> j -> slots b !! i = Some si -> slots b !! j = Some sj ->
     h ∈ handles si -> h ∉ handles sj)
  /\ (forall i slot h, slots b !! i = Some slot -> h ∈ handles slot ->
       h < next_handle (world b)).

(** The operations behind the controls of one channel strip. *)
Inductive Operation :=
| LoadSound (env : Env) (soundName : string) (soundDef : SoundType)
| ToggleSlot
| UpdateVolume (newVolume : Q)
| ToggleMute
| RemoveSound.

Definition perform (op : Operation) (slotId : nat) : M Board unit :=
  match op with
  | LoadSound env soundName soundDef => loadSound env slotId soundName soundDef
  | ToggleSlot => toggleSlot slotId
  | UpdateVolume newVolume => updateVolume slotId newVolume
  | ToggleMute => toggleMute slotId
  | RemoveSound => removeSound slotId
  end.

(** The states that the mixer can be in: any operations, on any slots,
    one after the other. *)
Inductive reachable : Board -> Prop :=
| reachable_mounted : reachable mounted
| reachable_perform b op slotId :
    reachable b -> reachable (state_after (perform op slotId) b).

(** The calls that [release] makes. *)
Definition release_calls (slot : SoundSlot) : list Call :=
  match oscillator slot with Some h => [Stop h; Dispose h] | None => [] end
  ++ match noise slot with Some h => [Stop h; Dispose h] | None => [] end
  ++ match player slot with Some h => [Stop h; Dispose h] | None => [] end
  ++ match filter slot with Some h => [Dispose h] | None => [] end.

(** The board with further calls on its log. *)
Definition logged (cs : list Call) (b : Board) : Board :=
  {| slots := slots b; volumeControls := volumeControls b;
     world := {| next_handle := next_handle (world b); next_timer := next_timer (world b);
                 timers := timers (world b); calls := calls (world b) ++ cs |} |}.

(** The slot as the [catch] block of [loadSound] leaves it. *)
Definition reverted (slot : SoundSlot) : SoundSlot :=
  set_player None (set_soundDef None (set_soundName None
    (set_isPlaying false (set_isLoading false slot)))).

(** The errors with which the loading of a file can end. *)
Definition possible_errors (env : Env) (path : string) : list JsValue :=
  option_list (construct env) ++ option_list (fetch env)
  ++ [ ErrorObject ("Unable to decode: " +:+ path +:+
                    ". Please ensure the file is a valid MP3 audio file.");
       buffer_not_loaded path; invalid_duration_error path ].

(** The nodes held by the slot [slotId]. *)
Definition held (b : Board) (slotId : nat) : list Handle :=
  match element (slots b) slotId with
  | Some slot => handles slot
  | None => []
  end.

(** How a slot may change while slot [slotId] is operated and the nodes
    [lo], ..., [hi - 1] are created: only that slot changes, and it gains
    no nodes but new ones. *)
Definition slot_step (slotId : nat) (lo hi : Handle) (slot slot' : SoundSlot) : Prop :=
  id slot' = id slot
  /\ (id slot <> slotId -> slot' = slot)
  /\ forall h, h ∈ handles slot' -> h ∈ handles slot \/ lo <= h < hi.

(** The calls made meanwhile: on nodes that the slot held or on new
    ones, and to the volume node of the slot. *)
Definition call_step (slotId : nat) (owned : list Handle) (lo hi : Handle) (c : Call)
  : Prop :=
  (forall h, h ∈ subjects c -> h ∈ owned \/ lo <= h < hi)
  /\ (forall i, i ∈ volume_nodes c -> Datatypes.S i = slotId).

(** What may differ between [b] and a later state [b'] when only slot
    [slotId] has been operated. *)
Definition confined (slotId : nat) (b b' : Board) : Prop :=
  let lo := next_handle (world b) in
  let hi := next_handle (world b') in
  Forall2 (slot_step slotId lo hi) (slots b) (slots b')
  /\ length (volumeControls b') = length (volumeControls b)
  /\ (forall i, Datatypes.S i <> slotId -> volumeControls b' !! i = volumeControls b !! i)
  /\ lo <= hi
  /\ exists cs,
       calls (world b') = calls (world b) ++ cs
       /\ Forall (call_step slotId (held b slotId) lo hi) cs.

(** *** The markup of a channel strip *)

(** The [onChange] handler of the sound selector of a strip.
    [soundName] is the value of the chosen option: the empty string of
    the first option ("Track n") or a key of [SOUNDS]. *)
Definition handleSelectChange (env : Env) (slotId : nat) (soundName : string)
  : M Board unit :=
  let chosen := lookup_sound SOUNDS soundName in
  if negb (String.eqb soundName "") && truthy chosen then
    match chosen with
    | Some soundDef => loadSound env slotId soundName soundDef
    | None => ret tt
    end
  else if String.eqb soundName "" then removeSound slotId
  else ret tt.

(** [Math.max(0, Math.min(1, 1 - (y / height)))], where [height] is the
    height of the fader element, a positive number.  Numbers are exact
    rationals here. *)
Definition fader_percentage (y height : Q) : Q :=
  Qmax 0 (Qmin 1 (1 - y / height)).

(** [handleMouseMove]: the pointer is at [clientY] and the rectangle of
    the fader element starts at [top] and is [height] high. *)
Definition handleMouseMove (slotId : nat) (clientY top height : Q) : M Board unit :=
  let y := (clientY - top)%Q in
  let percentage := fader_percentage y height in
  let newVolume := (-40 + percentage * 40)%Q in
  updateVolume slotId newVolume.

(** [handleFaderMouseDown]: without a fader element for the slot the
    handler returns; otherwise it treats the event as the first move. *)
Definition handleFaderMouseDown (slotId : nat) (clientY top height : Q)
  : M Board unit :=
  b <- get ;;
  match element (slots b) slotId with
  | None => ret tt
  | Some _ => handleMouseMove slotId clientY top height
  end.


(** The cleanup of the mount effect.  The effect has no dependencies, so
    the [slots] that its cleanup walks through is the array of the first
    render.  The result lists the volume nodes that are disposed. *)
Definition unmount : M Board (list nat) :=
  foldr (fun slot rest => release slot ;; rest) (ret tt) (slots mounted) ;;
  b <- get ;;
  ret (seq 0 (length (volumeControls b))).

(** What the user can do with one channel strip. *)
Inductive Gesture :=
| ChooseSound (env : Env) (soundName : string)
| PressPlayPause
| DragFader (clientY top height : Q)
| PressMute
| PressRemove.

Definition gesture (g : Gesture) (slotId : nat) : M Board unit :=
  match g with
  | ChooseSound env soundName => handleSelectChange env slotId soundName
  | PressPlayPause => toggleSlot slotId
  | DragFader clientY top height => handleFaderMouseDown slotId clientY top height
  | PressMute => toggleMute slotId
  | PressRemove => removeSound slotId
  end.

(** Whether the strip of [slot] offers the gesture: the control is not
    disabled, the selector lists the empty option and the keys of
    [SOUNDS], and the fader element has a height. *)
Definition offered (slot : SoundSlot) (g : Gesture) : Prop :=
  match g with
  | ChooseSound _ soundName =>
      enabled slot SoundSelect = true /\ (soundName = "" \/ soundName ∈ SOUNDS.*1)
  | PressPlayPause => enabled slot PlayPause = true
  | DragFader _ _ height => (0 < height)%Q
  | PressMute => enabled slot MuteButton = true
  | PressRemove => enabled slot RemoveButton = true
  end.

(** The states that the mixer can be brought into through its markup. *)
Inductive usable : Board -> Prop :=
| usable_mounted : usable mounted
| usable_gesture b slotId slot g :
    usable b -> element (slots b) slotId = Some slot -> offered slot g ->
    usable (state_after (gesture g slotId) b).



(** The selection of the slot is an entry of the catalog, or empty. *)
Definition catalogued (slot : SoundSlot) : Prop :=
  match soundName slot with
  | Some name => name <> "" /\ soundDef slot = lookup_sound SOUNDS name
                 /\ truthy (soundDef slot) = true
  | None => soundDef slot = None
  end.

(** The calls with which [loadSound] builds the source of a sound as
    node [h] (and its filter as node [h + 1]) for the volume node
    [index], and the slot with that source attached. *)
Definition created_for (soundDef : SoundType) (h : Handle) (index : nat) : list Call :=
  match soundDef with
  | Frequency hz => [NewOscillator h hz; Connect h (VolumeNode index)]
  | Noise green =>
      [NewNoise h pink; NewFilter (Datatypes.S h) 500 bandpass 2;
       Connect h (FilterNode (Datatypes.S h)); Connect (Datatypes.S h) (VolumeNode index)]
  | Noise bath =>
      [NewNoise h brown; NewFilter (Datatypes.S h) 800 lowpass 1;
       Connect h (FilterNode (Datatypes.S h)); Connect (Datatypes.S h) (VolumeNode index)]
  | Noise name => [NewNoise h name; Connect h (VolumeNode index)]
  | AudioFile path => [NewPlayer h path; Connect h (VolumeNode index); Load h path]
  end.

Definition attached (soundDef : SoundType) (h : Handle) (slot : SoundSlot) : SoundSlot :=
  match soundDef with
  | Frequency _ => set_oscillator (Some h) slot
  | Noise name =>
      set_filter (match name with green | bath => Some (Datatypes.S h) | _ => None end)
        (set_noise (Some h) slot)
  | AudioFile _ => set_player (Some h) slot
  end.

(** The slot after a load that succeeded, and after [removeSound]. *)
Definition loaded (soundName : string) (soundDef : SoundType) (h : Handle)
  (slot : SoundSlot) : SoundSlot :=
  set_isPlaying true (set_isLoading false (attached soundDef h
    (set_soundDef (Some soundDef) (set_soundName (Some soundName) slot)))).

Definition emptied (slot : SoundSlot) : SoundSlot :=
  set_filter None (set_player None (set_noise None (set_oscillator None
    (set_isPlaying false (set_soundDef None (set_soundName None slot)))))).

(** What an operation makes of the slot it is applied to, in a state
    whose next node is [h]. *)
Definition outcome (h : Handle) (op : Operation) (slot slot' : SoundSlot) : Prop :=
  match op with
  | LoadSound _ soundName soundDef =>
      slot' = loaded soundName soundDef h slot \/ slot' = reverted slot
  | ToggleSlot =>
      slot' = if truthy (soundDef slot)
              then set_isPlaying (negb (isPlaying slot)) slot else slot
  | UpdateVolume newVolume => slot' = set_isMuted false (set_volume newVolume slot)
  | ToggleMute => slot' = set_isMuted (negb (isMuted slot)) slot
  | RemoveSound => slot' = emptied slot
  end.

(** The path that the alert of a failed load shows. *)
Definition shown_path (soundDef : SoundType) : string :=
  match soundDef with AudioFile path => path | _ => "N/A" end.

(** The operations that the markup can ask for: a sound of the catalog
    under its own name, and a volume that the fader can produce. *)
Definition tame (op : Operation) : Prop :=
  match op with
  | LoadSound _ soundName soundDef =>
      soundName <> "" /\ lookup_sound SOUNDS soundName = Some soundDef
      /\ truthy (Some soundDef) = true
  | UpdateVolume newVolume => (-40 <= newVolume <= 0)%Q
  | _ => True
  end.

(** The level of the slot is one that the fader can produce. *)
Definition in_range (slot : SoundSlot) : Prop := (-40 <= volume slot <= 0)%Q.

End SoundBoard.

(** ** The single-channel player (SoundPlayer) *)
Module SoundPlayer.

(** The component state: the values kept with [useState], the contents
    of the refs, and the log of library calls.  The state copies
    [oscillator], [noise] and [player] are written and never read; they
    are left out. *)
Record Player := {
  isPlaying : bool;
  isLoading : bool;
  selectedSound : string;
  oscillatorRef : option Handle;
  noiseRef : option Handle;
  playerRef : option Handle;
  volume : Q;
  isMuted : bool;
  previousVolume : Q;
  timer : Z;
  selectedTimerDuration : option Z;
  timerIntervalRef : option nat;
  isPlayingRef : bool;
  world : Browser;
}.

Definition setIsPlaying (v : bool) : M Player unit := modify (fun p =>
  {| isPlaying := v; isLoading := isLoading p; selectedSound := selectedSound p;
     oscillatorRef := oscillatorRef p; noiseRef := noiseRef p; playerRef := playerRef p;
     volume := volume p; isMuted := isMuted p; previousVolume := previousVolume p;
     timer := timer p; selectedTimerDuration := selectedTimerDuration p;
     timerIntervalRef := timerIntervalRef p; isPlayingRef := isPlayingRef p;
     world := world p |}).
Definition setIsLoading (v : bool) : M Player unit := modify (fun p =>
  {| isPlaying := isPlaying p; isLoading := v; selectedSound := selectedSound p;
     oscillatorRef := oscillatorRef p; noiseRef := noiseRef p; playerRef := playerRef p;
     volume := volume p; isMuted := isMuted p; previousVolume := previousVolume p;
     timer := timer p; selectedTimerDuration := selectedTimerDuration p;
     timerIntervalRef := timerIntervalRef p; isPlayingRef := isPlayingRef p;
     world := world p |}).
Definition setSelectedSound (v : string) : M Player unit := modify (fun p =>
  {| isPlaying := isPlaying p; isLoading := isLoading p; selectedSound := v;
     oscillatorRef := oscillatorRef p; noiseRef := noiseRef p; playerRef := playerRef p;
     volume := volume p; isMuted := isMuted p; previousVolume := previousVolume p;
     timer := timer p; selectedTimerDuration := selectedTimerDuration p;
     timerIntervalRef := timerIntervalRef p; isPlayingRef := isPlayingRef p;
     world := world p |}).
Definition set_oscillatorRef (v : option Handle) : M Player unit := modify (fun p =>
  {| isPlaying := isPlaying p; isLoading := isLoading p; selectedSound := selectedSound p;
     oscillatorRef := v; noiseRef := noiseRef p; playerRef := playerRef p;
     volume := volume p; isMuted := isMuted p; previousVolume := previousVolume p;
     timer := timer p; selectedTimerDuration := selectedTimerDuration p;
     timerIntervalRef := timerIntervalRef p; isPlayingRef := isPlayingRef p;
     world := world p |}).
Definition set_noiseRef (v : option Handle) : M Player unit := modify (fun p =>
  {| isPlaying := isPlaying p; isLoading := isLoading p; selectedSound := selectedSound p;
     oscillatorRef := oscillatorRef p; noiseRef := v; playerRef := playerRef p;
     volume := volume p; isMuted := isMuted p; previousVolume := previousVolume p;
     timer := timer p; selectedTimerDuration := selectedTimerDuration p;
     timerIntervalRef := timerIntervalRef p; isPlayingRef := isPlayingRef p;
     world := world p |}).
Definition set_playerRef (v : option Handle) : M Player unit := modify (fun p =>
  {| isPlaying := isPlaying p; isLoading := isLoading p; selectedSound := selectedSound p;
     oscillatorRef := oscillatorRef p; noiseRef := noiseRef p; playerRef := v;
     volume := volume p; isMuted := isMuted p; previousVolume := previousVolume p;
     timer := timer p; selectedTimerDuration := selectedTimerDuration p;
     timerIntervalRef := timerIntervalRef p; isPlayingRef := isPlayingRef p;
     world := world p |}).
Definition setVolume (v : Q) : M Player unit := modify (fun p =>
  {| isPlaying := isPlaying p; isLoading := isLoading p; selectedSound := selectedSound p;
     oscillatorRef := oscillatorRef p; noiseRef := noiseRef p; playerRef := playerRef p;
     volume := v; isMuted := isMuted p; previousVolume := previousVolume p;
     timer := timer p; selectedTimerDuration := selectedTimerDuration p;
     timerIntervalRef := timerIntervalRef p; isPlayingRef := isPlayingRef p;
     world := world p |}).
Definition setIsMuted (v : bool) : M Player unit := modify (fun p =>
  {| isPlaying := isPlaying p; isLoading := isLoading p; selectedSound := selectedSound p;
     oscillatorRef := oscillatorRef p; noiseRef := noiseRef p; playerRef := playerRef p;
     volume := volume p; isMuted := v; previousVolume := previousVolume p;
     timer := timer p; selectedTimerDuration := selectedTimerDuration p;
     timerIntervalRef := timerIntervalRef p; isPlayingRef := isPlayingRef p;
     world := world p |}).
Definition set_previousVolume (v : Q) : M Player unit := modify (fun p =>
  {| isPlaying := isPlaying p; isLoading := isLoading p; selectedSound := selectedSound p;
     oscillatorRef := oscillatorRef p; noiseRef := noiseRef p; playerRef := playerRef p;
     volume := volume p; isMuted := isMuted p; previousVolume := v;
     timer := timer p; selectedTimerDuration := selectedTimerDuration p;
     timerIntervalRef := timerIntervalRef p; isPlayingRef := isPlayingRef p;
     world := world p |}).
Definition setTimer (v : Z) : M Player unit := modify (fun p =>
  {| isPlaying := isPlaying p; isLoading := isLoading p; selectedSound := selectedSound p;
     oscillatorRef := oscillatorRef p; noiseRef := noiseRef p; playerRef := playerRef p;
     volume := volume p; isMuted := isMuted p; previousVolume := previousVolume p;
     timer := v; selectedTimerDuration := selectedTimerDuration p;
     timerIntervalRef := timerIntervalRef p; isPlayingRef := isPlayingRef p;
     world := world p |}).
Definition setSelectedTimerDuration (v : option Z) : M Player unit := modify (fun p =>
  {| isPlaying := isPlaying p; isLoading := isLoading p; selectedSound := selectedSound p;
     oscillatorRef := oscillatorRef p; noiseRef := noiseRef p; playerRef := playerRef p;
     volume := volume p; isMuted := isMuted p; previousVolume := previousVolume p;
     timer := timer p; selectedTimerDuration := v;
     timerIntervalRef := timerIntervalRef p; isPlayingRef := isPlayingRef p;
     world := world p |}).
Definition set_timerIntervalRef (v : option nat) : M Player unit := modify (fun p =>
  {| isPlaying := isPlaying p; isLoading := isLoading p; selectedSound := selectedSound p;
     oscillatorRef := oscillatorRef p; noiseRef := noiseRef p; playerRef := playerRef p;
     volume := volume p; isMuted := isMuted p; previousVolume := previousVolume p;
     timer := timer p; selectedTimerDuration := selectedTimerDuration p;
     timerIntervalRef := v; isPlayingRef := isPlayingRef p;
     world := world p |}).
Definition set_isPlayingRef (v : bool) : M Player unit := modify (fun p =>
  {| isPlaying := isPlaying p; isLoading := isLoading p; selectedSound := selectedSound p;
     oscillatorRef := oscillatorRef p; noiseRef := noiseRef p; playerRef := playerRef p;
     volume := volume p; isMuted := isMuted p; previousVolume := previousVolume p;
     timer := timer p; selectedTimerDuration := selectedTimerDuration p;
     timerIntervalRef := timerIntervalRef p; isPlayingRef := v;
     world := world p |}).

#[export] Instance Player_hosted : Hosted Player := {|
  browser := world;
  with_browser w p :=
    {| isPlaying := isPlaying p; isLoading := isLoading p; selectedSound := selectedSound p;
       oscillatorRef := oscillatorRef p; noiseRef := noiseRef p; playerRef := playerRef p;
       volume := volume p; isMuted := isMuted p; previousVolume := previousVolume p;
       timer := timer p; selectedTimerDuration := selectedTimerDuration p;
       timerIntervalRef := timerIntervalRef p; isPlayingRef := isPlayingRef p;
       world := w |};
|}.

(** The state after mounting. *)
Definition mounted : Player :=
  {| isPlaying := false; isLoading := false; selectedSound := "528 Hz (Love/Miracle)";
     oscillatorRef := None; noiseRef := None; playerRef := None;
     volume := (-12 # 1)%Q; isMuted := false; previousVolume := (-12 # 1)%Q;
     timer := 0; selectedTimerDuration := None;
     timerIntervalRef := None; isPlayingRef := false;
     world := fresh_browser |}.

(** The effect on [[volume, isMuted]] keeps the one [Tone.Volume] node at
    [isMuted ? -Infinity : volume]. *)
Definition volumeControl (p : Player) : Level :=
  if isMuted p then NegInfinity else Decibels (volume p).

(** The three guarded blocks
    [if (ref.current) { ref.current.stop(); ref.current.dispose(); ref.current = null; }] *)
Definition release_sources : M Player unit :=
  p <- get ;;
  match oscillatorRef p with
  | Some h => emit (Stop h) ;; emit (Dispose h) ;; set_oscillatorRef None
  | None => ret tt
  end ;;
  match noiseRef p with
  | Some h => emit (Stop h) ;; emit (Dispose h) ;; set_noiseRef None
  | None => ret tt
  end ;;
  match playerRef p with
  | Some h => emit (Stop h) ;; emit (Dispose h) ;; set_playerRef None
  | None => ret tt
  end.

(** [if (timerIntervalRef.current) { clearInterval(...); timerIntervalRef.current = null; }] *)
Definition stop_timer : M Player unit :=
  p <- get ;;
  match timerIntervalRef p with
  | Some timerId => clearInterval timerId ;; set_timerIntervalRef None
  | None => ret tt
  end.

(** The message that the [catch] block of the file branch extracts. *)
Definition describe (error : JsValue) : string :=
  match error with
  | ErrorObject message => message
  | Primitive "" => "Unknown error"
  | Primitive text => text
  end.

Definition warning_text (path errorMessage : string) : string :=
  "Could not load audio file: " +:+ path +:+ ". Error: " +:+ errorMessage.

(** The callback of the countdown interval. *)
Definition countdown_tick : M Player unit :=
  p <- get ;;
  if (timer p <=? 1)%Z then
    (* Timer reached zero - stop the sound *)
    stop_timer ;;
    release_sources ;;
    setIsPlaying false ;;
    set_isPlayingRef false ;;
    setTimer 0
  else setTimer (timer p - 1).

(** The callback of the count-up interval. *)
Definition countup_tick : M Player unit :=
  p <- get ;;
  setTimer (timer p + 1).

(** One second passes for the interval [timerId]: its callback runs if
    the interval is still registered. *)
Definition interval_fires (timerId : nat) : M Player unit :=
  p <- get ;;
  match List.find (fun entry => fst entry =? timerId) (timers (world p)) with
  | Some (_, CountDown) => countdown_tick
  | Some (_, CountUp) => countup_tick
  | None => ret tt
  end.

(** The branch of [toggleSound] for a frequency. *)
Definition play_frequency (env : Env) (hz : Z) : M Player unit :=
  try_catch
    (osc <- new_node env (fun h => NewOscillator h hz) ;;
     emit (Connect osc (VolumeNode 0)) ;;
     set_oscillatorRef (Some osc) ;;
     emit (Start osc) ;;
     setIsPlaying true)
    (fun _ => emit (Alert "Failed to play sound. Please try again.")).

(** The branch of [toggleSound] for a noise name. *)
Definition play_noise (env : Env) (name : NoiseName) : M Player unit :=
  try_catch
    (created <- create_noise env 0 name ;;
     let '(noiseGen, _) := created in
     set_noiseRef (Some noiseGen) ;;
     emit (Start noiseGen) ;;
     setIsPlaying true ;;
     set_isPlayingRef true)
    (fun _ =>
       emit (Alert "Failed to play sound. Please try again.") ;;
       setIsPlaying false ;;
       set_isPlayingRef false).

(** The branch of [toggleSound] for an audio file. *)
Definition play_file (env : Env) (path : string) : M Player unit :=
  setIsLoading true ;;
  try_catch
    (audioPlayer <- new_node env (fun h => NewPlayer h path) ;;
     emit (Connect audioPlayer (VolumeNode 0)) ;;
     set_playerRef (Some audioPlayer) ;;
     emit (Load audioPlayer path) ;;
     settle_load env path ;;
     (* Wait for buffer to be fully ready with retry logic *)
     let attempts := wait_for_buffer (loaded_at env) 0 in
     (* Verify the buffer loaded - give it one more chance: 500 ms *)
     (if negb (loaded_at env attempts) then
        if negb (loaded_at env (attempts + 5)) then throw (buffer_not_loaded path)
        else ret tt
      else ret tt) ;;
     (* Verify buffer has valid duration *)
     (if invalid_duration (duration env) then throw (invalid_duration_error path)
      else ret tt) ;;
     (* Start playback *)
     emit (Start audioPlayer) ;;
     setIsPlaying true ;;
     set_isPlayingRef true ;;
     setIsLoading false)
    (fun error =>
       let errorMessage := describe error in
       setIsPlaying false ;;
       set_isPlayingRef false ;;
       setIsLoading false ;;
       p <- get ;;
       match playerRef p with
       | Some h => emit (Dispose h) ;; set_playerRef None
       | None => ret tt
       end ;;
       emit (ConsoleWarn (warning_text path errorMessage))).

(** Start timer only if sound is playing. *)
Definition start_timer (selectedTimerDuration : option Z) : M Player unit :=
  p <- get ;;
  if isPlayingRef p then
    match selectedTimerDuration with
    | Some duration =>
        setTimer duration ;;
        timerId <- setInterval CountDown ;;
        set_timerIntervalRef (Some timerId)
    | None =>
        (* Count up timer *)
        setTimer 0 ;;
        timerId <- setInterval CountUp ;;
        set_timerIntervalRef (Some timerId)
    end
  else ret tt.

(** The handler of the play/pause button.  [isPlaying], [selectedSound]
    and [selectedTimerDuration] are the values of the render in which
    the handler was created. *)
Definition toggleSound (env : Env) : M Player unit :=
  render <- get ;;
  if negb (isPlaying render) then
    (* Clean up any existing sounds first *)
    release_sources ;;
    started <- attempt (Tone_start env) ;;
    match started with
    | Thrown _ => ret tt
    | Returned _ =>
        let soundDef := lookup_sound SOUNDS (selectedSound render) in
        if negb (truthy soundDef) then ret tt
        else
          match soundDef with
          | Some (Frequency hz) => play_frequency env hz
          | Some (Noise name) => play_noise env name
          | Some (AudioFile path) => play_file env path
          | None => ret tt
          end ;;
          start_timer (selectedTimerDuration render) ;;
          setIsPlaying (negb (isPlaying render))
    end
  else
    set_isPlayingRef false ;;
    release_sources ;;
    (* Stop timer *)
    stop_timer ;;
    setIsPlaying (negb (isPlaying render)).

Definition handleSoundChange (value : string) : M Player unit :=
  render <- get ;;
  (if isPlaying render then
     release_sources ;;
     setIsPlaying false ;;
     set_isPlayingRef false ;;
     (* Reset timer *)
     stop_timer ;;
     setTimer (match selectedTimerDuration render with
               | Some duration => duration
               | None => 0
               end)
   else ret tt) ;;
  setSelectedSound value.

(** [duration] is [value === 'null' ? null : parseInt(value)]. *)
Definition handleTimerChange (duration : option Z) : M Player unit :=
  render <- get ;;
  setSelectedTimerDuration duration ;;
  if negb (isPlaying render) then
    setTimer (match duration with Some d => d | None => 0 end)
  else ret tt.

(** [newVolume] is [parseInt(e.target.value)]. *)
Definition handleVolumeChange (newVolume : Z) : M Player unit :=
  render <- get ;;
  setVolume (inject_Z newVolume) ;;
  if isMuted render then setIsMuted false else ret tt.

Definition toggleMute : M Player unit :=
  render <- get ;;
  (if isMuted render then setVolume (previousVolume render)
   else set_previousVolume (volume render)) ;;
  setIsMuted (negb (isMuted render)).

(** *** Notions used to state properties of the player *)

(** The audio-source handles that the player holds. *)
Definition sources (p : Player) : list Handle :=
  option_list (oscillatorRef p) ++ option_list (noiseRef p) ++ option_list (playerRef p).

(** The calls that [release_sources] makes, and the state it leaves. *)
Definition release_calls (p : Player) : list Call :=
  match oscillatorRef p with Some h => [Stop h; Dispose h] | None => [] end
  ++ match noiseRef p with Some h => [Stop h; Dispose h] | None => [] end
  ++ match playerRef p with Some h => [Stop h; Dispose h] | None => [] end.

Definition released (p : Player) : Player :=
  {| isPlaying := isPlaying p; isLoading := isLoading p; selectedSound := selectedSound p;
     oscillatorRef := None; noiseRef := None; playerRef := None;
     volume := volume p; isMuted := isMuted p; previousVolume := previousVolume p;
     timer := timer p; selectedTimerDuration := selectedTimerDuration p;
     timerIntervalRef := timerIntervalRef p; isPlayingRef := isPlayingRef p;
     world := {| next_handle := next_handle (world p); next_timer := next_timer (world p);
                 timers := timers (world p);
                 calls := calls (world p) ++ release_calls p |} |}.

(** The errors with which the loading of a file can end. *)
Definition possible_errors (env : Env) (path : string) : list JsValue :=
  option_list (construct env) ++ option_list (fetch env)
  ++ [ ErrorObject ("Unable to decode audio file: " +:+ path +:+
                    ". The file may be corrupted, in an unsupported format, or not a valid MP3 file.");
       buffer_not_loaded path; invalid_duration_error path ].

(** [n] seconds pass for the interval [timerId]. *)
Fixpoint seconds_pass (n : nat) (timerId : nat) : M Player unit :=
  match n with
  | 0 => ret tt
  | Datatypes.S n' => interval_fires timerId ;; seconds_pass n' timerId
  end.

(** What the user and the clock can do to the player. *)
Inductive Action :=
| ToggleSound (env : Env)
| HandleSoundChange (value : string)
| HandleTimerChange (duration : option Z)
| HandleVolumeChange (newVolume : Z)
| ToggleMute
| IntervalFires (timerId : nat).

Definition perform (action : Action) : M Player unit :=
  match action with
  | ToggleSound env => toggleSound env
  | HandleSoundChange value => handleSoundChange value
  | HandleTimerChange duration => handleTimerChange duration
  | HandleVolumeChange newVolume => handleVolumeChange newVolume
  | ToggleMute => toggleMute
  | IntervalFires timerId => interval_fires timerId
  end.

Inductive reachable : Player -> Prop :=
| reachable_mounted : reachable mounted
| reachable_perform p action :
    reachable p -> reachable (state_after (perform action) p).

(** *** The markup of the player, and what it shows *)

Definition TIMER_PRESETS : list (string * option Z) :=
  [ ("No Timer", None);
    ("5 minutes", Some (5 * 60)%Z);
    ("10 minutes", Some (10 * 60)%Z);
    ("15 minutes", Some (15 * 60)%Z);
    ("20 minutes", Some (20 * 60)%Z);
    ("30 minutes", Some (30 * 60)%Z);
    ("45 minutes", Some (45 * 60)%Z);
    ("60 minutes", Some (60 * 60)%Z) ].

(** [n.toString()] for an integer: its decimal digits, after a minus
    sign if it is negative. *)
Definition toString (n : Z) : string := NilZero.string_of_int (Z.to_int n).





(** The cleanups of the two effects, which run when the component is
    removed: the first disposes the volume node and clears the timer
    interval ([keepAliveIntervalRef] is never set), the second stops and
    disposes the sources that the refs hold.  The result lists the
    volume nodes that are disposed. *)
Definition unmount : M Player (list nat) :=
  p <- get ;;
  match timerIntervalRef p with
  | Some timerId => clearInterval timerId
  | None => ret tt
  end ;;
  stop_and_dispose (oscillatorRef p) ;;
  stop_and_dispose (noiseRef p) ;;
  stop_and_dispose (playerRef p) ;;
  ret [0].

(** Whether the markup offers the action in state [p]: the selector
    lists the keys of [SOUNDS]; the timer selector lists
    [TIMER_PRESETS] and is disabled while playing; the play button is
    disabled while loading; the volume slider ranges from -40 to 0. *)
Definition offered (p : Player) (action : Action) : Prop :=
  match action with
  | ToggleSound _ => isLoading p = false
  | HandleSoundChange value => value ∈ SOUNDS.*1
  | HandleTimerChange duration =>
      isPlaying p = false /\ duration ∈ TIMER_PRESETS.*2
  | HandleVolumeChange newVolume => (-40 <= newVolume <= 0)%Z
  | ToggleMute => True
  | IntervalFires _ => True
  end.

(** The states that the player can be brought into through its markup
    and by its timer. *)
Inductive usable : Player -> Prop :=
| usable_mounted : usable mounted
| usable_perform p action :
    usable p -> offered p action -> usable (state_after (perform action) p).

(** No call of the log is made on a node that an earlier call has
    disposed. *)
Definition clean (cs : list Call) : Prop :=
  forall i j h c,
    cs !! i = Some (Dispose h) -> cs !! j = Some c -> i < j -> h ∉ subjects c.

(** The filter nodes that the log creates. *)
Definition filters_of (cs : list Call) : list Handle :=
  omap (fun c => match c with NewFilter h _ _ _ => Some h | _ => None end) cs.

(** The state of the player is coherent: it is not loading; while it is
    stopped it holds no source and runs no interval; the flag
    [isPlayingRef] is set only while a source plays under a running
    interval; the intervals of the browser are the one that
    [timerIntervalRef] names; at most one source is held; and an interval
    runs only under that flag. *)
Definition coherent (p : Player) : Prop :=
  isLoading p = false
  /\ (isPlaying p = false -> sources p = [] /\ timerIntervalRef p = None)
  /\ (isPlayingRef p = true ->
      isPlaying p = true /\ sources p <> [] /\ is_Some (timerIntervalRef p))
  /\ match timerIntervalRef p with
     | Some timerId => exists callback, timers (world p) = [(timerId, callback)]
     | None => timers (world p) = []
     end
  /\ length (sources p) <= 1
  /\ (is_Some (timerIntervalRef p) -> isPlayingRef p = true).

(** The callback that [toggleSound] registers for a preset. *)
Definition callback_for (preset : option Z) : TimerCallback :=
  match preset with Some _ => CountDown | None => CountUp end.

(** The state shows what the controls offer: a sound of the catalog, a
    volume of the slider, a preset of the timer selector, a timer between
    zero and the preset, and an interval of the kind that the preset
    asks for. *)
Definition presentable (p : Player) : Prop :=
  selectedSound p ∈ SOUNDS.*1
  /\ (-40 <= volume p <= 0)%Q /\ (-40 <= previousVolume p <= 0)%Q
  /\ selectedTimerDuration p ∈ TIMER_PRESETS.*2
  /\ match selectedTimerDuration p with
     | Some preset => (0 <= timer p <= preset)%Z
     | None => (0 <= timer p)%Z
     end
  /\ forall timerId,
       timerIntervalRef p = Some timerId ->
       timers (world p) = [(timerId, callback_for (selectedTimerDuration p))].

(** The log and the sources fit together: every node of the log has
    been created, no call is made on a disposed node, a source that the
    player holds is neither disposed nor a filter, and no filter is
    disposed. *)
Definition tidy (p : Player) : Prop :=
  (forall c h, c ∈ calls (world p) -> h ∈ subjects c -> h < next_handle (world p))
  /\ clean (calls (world p))
  /\ (forall h, h ∈ sources p ->
        h < next_handle (world p) /\ (Dispose h ∉ calls (world p))
        /\ (h ∉ filters_of (calls (world p))))
  /\ (forall h, h ∈ filters_of (calls (world p)) -> (Dispose h ∉ calls (world p))).

End SoundPlayer.

(** ** The page (App) *)
Module App.

Record Scenery := {
  image : string;
  overlay : string;
  primaryColor : string;
  secondaryColor : string;
  textColor : string;
  accentColor : string;
  headerTextColor : option string;
}.

Definition SCENERIES : list Scenery :=
  [ {| image := "https://images.unsplash.com/photo-1506905925346-21bda4d32df4?w=1920&q=80";
       overlay := "rgba(59, 130, 246, 0.25)";
       primaryColor := "#3b82f6"; secondaryColor := "#60a5fa";
       textColor := "#dbeafe"; accentColor := "#93c5fd"; headerTextColor := None |};
    {| image := "https://images.unsplash.com/photo-1441974231531-c6227db76b6e?w=1920&q=80";
       overlay := "rgba(34, 197, 94, 0.25)";
       primaryColor := "#22c55e"; secondaryColor := "#4ade80";
       textColor := "#dcfce7"; accentColor := "#86efac"; headerTextColor := Some "#ffffff" |};
    {| image := "https://images.unsplash.com/photo-1505142468610-359e7d316be0?w=1920&q=80";
       overlay := "rgba(96, 165, 250, 0.25)";
       primaryColor := "#60a5fa"; secondaryColor := "#93c5fd";
       textColor := "#dbeafe"; accentColor := "#bfdbfe"; headerTextColor := None |};
    {| image := "https://images.unsplash.com/photo-1472214103451-9374bd1c798e?w=1920&q=80";
       overlay := "rgba(37, 99, 235, 0.25)";
       primaryColor := "#2563eb"; secondaryColor := "#3b82f6";
       textColor := "#dbeafe"; accentColor := "#93c5fd"; headerTextColor := None |};
    {| image := "https://images.unsplash.com/photo-1519681393784-d120267933ba?w=1920&q=80";
       overlay := "rgba(79, 70, 229, 0.25)";
       primaryColor := "#4f46e5"; secondaryColor := "#6366f1";
       textColor := "#e0e7ff"; accentColor := "#a5b4fc"; headerTextColor := Some "#ffffff" |} ].

(** [(prev + 1) % SCENERIES.length]: the update of [currentScenery] by
    the two-minute interval and by the background button. *)
Definition next_scenery (prev : nat) : nat := (prev + 1) mod length SCENERIES.

(** [currentScenery] after [n] changes, starting from [useState(0)]. *)
Fixpoint currentScenery (n : nat) : nat :=
  match n with
  | 0 => 0
  | Datatypes.S n' => next_scenery (currentScenery n')
  end.

End App.

(** * Properties *)

(** ** Running a handler on a state

    The monad operations unfold as soon as they are applied to a state,
    so that the tactic [js] of each component executes a handler up to
    the next test that it cannot decide. *)
Set Warnings "-clear-no-such-hyp".

Arguments bind {S A B} m k s /.
Arguments get {S} s /.
Arguments ret {S A} a s /.
Arguments throw {S A} e s /.
Arguments modify {S} f s /.
Arguments try_catch {S A} body handler s /.
Arguments attempt {S A} body s /.
Arguments log c w /.
Arguments emit {S _} c s /.
Arguments allocate {S _} s /.
Arguments new_node {S _} env describe s /.
Arguments Tone_start {S} env s /.
Arguments stop_and_dispose {S _} node s /.
Arguments optionally {S _} method node s /.
Arguments setInterval {S _} callback s /.
Arguments clearInterval {S _} timerId s /.
Arguments settle_load {S} env path s /.
Arguments create_noise {S _} env volumeControl soundDef s /.
Arguments state_after {S A} m s /.
Arguments result_of {S A} m s /.

(** The next test that blocks the execution: the innermost value under
    a [match] of the goal. *)
Ltac blocking_test t k :=
  match t with
  | context [match ?x with _ => _ end] => first [ blocking_test x k | k x ]
  end.

Ltac split_on_test :=
  match goal with
  | |- ?G => blocking_test G ltac:(fun x => destruct x eqn:?)
  end.

Lemma new_calls_app (w w' : Browser) (cs : list Call) :
  calls w' = calls w ++ cs -> new_calls w w' = cs.
Proof. intros extends. unfold new_calls. by rewrite extends, drop_app_length. Qed.

Ltac new_calls_tac :=
  apply new_calls_app; cbn [calls]; rewrite <- ?app_assoc; cbn [app]; reflexivity.

(** ** The buffer wait *)

Lemma wait_for_buffer_bounds (loaded : nat -> bool) (attempts : nat) :
  attempts <= maxAttempts ->
  attempts <= wait_for_buffer loaded attempts <= maxAttempts.
Proof.
  funelim (wait_for_buffer loaded attempts); intros; lia.
Qed.

(** When the loop is left, the buffer is loaded or the attempts are
    used up. *)
Lemma wait_for_buffer_exit (loaded : nat -> bool) (attempts : nat) :
  attempts <= maxAttempts ->
  loaded (wait_for_buffer loaded attempts) = true
  \/ wait_for_buffer loaded attempts = maxAttempts.
Proof.
  funelim (wait_for_buffer loaded attempts); intros.
  all: try (left; congruence).
  - match goal with IH : _ -> _ \/ _ |- _ => apply IH end. lia.
  - right. lia.
Qed.

(** ** The mixer *)
Module BoardFacts.
Import SoundBoard.

Arguments logged cs b /.
Arguments setSlots update s /.
Arguments set_volume_control slotId v s /.
Arguments slot_of slotId s /.
Arguments load_failed slotId soundName soundDef error s /.
Arguments player_failed {A} path playerError s /.

Ltac js :=
  cbn [bind get ret throw modify try_catch attempt emit allocate new_node Tone_start
       stop_and_dispose optionally setInterval clearInterval settle_load
       state_after result_of browser with_browser
       next_handle next_timer timers calls log fst snd
       setSlots set_volume_control slot_of load_failed player_failed logged create_noise
       Board_hosted slots volumeControls world].

(** *** Reading and updating the slot array *)

Lemma element_for_slot (prev : list SoundSlot) slotId change other :
  indexed prev ->
  element (for_slot slotId change prev) other
  = (if other =? slotId then change <$> element prev other else element prev other).
Proof.
  intros ids. destruct other as [|slotIndex].
  - by destruct (0 =? slotId).
  - unfold element, for_slot. rewrite list_lookup_fmap.
    destruct (prev !! slotIndex) as [slot|] eqn:found.
    + cbn [fmap option_fmap option_map]. rewrite (ids _ _ found).
      by destruct (Datatypes.S slotIndex =? slotId).
    + by destruct (Datatypes.S slotIndex =? slotId).
Qed.

Lemma indexed_for_slot prev slotId change :
  indexed prev -> (forall s, id (change s) = id s) -> indexed (for_slot slotId change prev).
Proof.
  intros ids keeps i slot. unfold for_slot. rewrite list_lookup_fmap.
  destruct (prev !! i) as [s|] eqn:found; [|done].
  cbn [fmap option_fmap option_map]. intros [= <-].
  destruct (id s =? slotId); rewrite ?keeps; by apply ids.
Qed.

Lemma element_for_slot_same prev slotId change slot :
  indexed prev -> element prev slotId = Some slot ->
  element (for_slot slotId change prev) slotId = Some (change slot).
Proof.
  intros ids found. rewrite element_for_slot by done. by rewrite Nat.eqb_refl, found.
Qed.

Lemma element_for_slot_other prev slotId change other :
  indexed prev -> other <> slotId ->
  element (for_slot slotId change prev) other = element prev other.
Proof.
  intros ids differs. rewrite element_for_slot by done.
  by destruct (Nat.eqb_spec other slotId).
Qed.

Lemma well_formed_indexed (b : Board) : well_formed b -> indexed (slots b).
Proof. intros wf i slot found. by destruct (wf i slot found). Qed.

Lemma well_formed_control (b : Board) slotId slot :
  well_formed b -> element (slots b) slotId = Some slot ->
  element (volumeControls b) slotId
  = Some (if isMuted slot then NegInfinity else Decibels (volume slot)).
Proof.
  intros wf found. destruct slotId as [|slotIndex]; [done|].
  by destruct (wf slotIndex slot found).
Qed.

Ltac indexed_tac :=
  repeat first [ assumption | apply indexed_for_slot; [|reflexivity] ].

(** Computes the slot [slotId] of nested [for_slot] updates. *)
Ltac slot_lookup :=
  lazymatch goal with
  | |- element _ _ = _ =>
      etransitivity;
      [ repeat first [ eassumption | apply element_for_slot_same; [indexed_tac|] ]
      | try by (match goal with s : SoundSlot |- _ => destruct s end) ]
  end.

Lemma release_run (slot : SoundSlot) (b : Board) :
  release slot b = (Returned tt, logged (release_calls slot) b).
Proof.
  unfold release, release_calls.
  destruct (oscillator slot), (noise slot), (player slot), (filter slot); js;
    cbn [app]; rewrite <- ?app_assoc, ?app_nil_r; try reflexivity.
  by destruct b as [? ? []].
Qed.

Lemma updateVolume_slot (b : Board) slotId slot newVolume :
  well_formed b -> element (slots b) slotId = Some slot ->
  let b' := state_after (updateVolume slotId newVolume) b in
  element (slots b') slotId = Some (set_isMuted false (set_volume newVolume slot))
  /\ element (volumeControls b') slotId = Some (Decibels newVolume).
Proof.
  intros wf found. unfold updateVolume. js.
  destruct slotId as [|slotIndex]; [done|]. js. split.
  - rewrite element_for_slot by by apply well_formed_indexed.
    by rewrite Nat.eqb_refl, found.
  - cbn [element]. apply list_lookup_insert_eq.
    eapply lookup_lt_Some. by apply (wf slotIndex slot).
Qed.

Lemma toggleMute_slot (b : Board) slotId slot :
  well_formed b -> element (slots b) slotId = Some slot ->
  let b' := state_after (toggleMute slotId) b in
  element (slots b') slotId = Some (set_isMuted (negb (isMuted slot)) slot)
  /\ element (volumeControls b') slotId
     = Some (if isMuted slot then Decibels (volume slot) else NegInfinity).
Proof.
  intros wf found. unfold toggleMute. js. rewrite found. js.
  destruct slotId as [|slotIndex]; [done|]. js. split.
  - rewrite element_for_slot by by apply well_formed_indexed.
    by rewrite Nat.eqb_refl, found.
  - cbn [element]. apply list_lookup_insert_eq.
    eapply lookup_lt_Some. by apply (wf slotIndex slot).
Qed.

(** *** Loading a file into a slot

    Either every check passes and the player is started, or the slot is
    reverted and an alert names the file and the error. *)
Lemma loadSound_file env b slotId slot soundName path :
  well_formed b -> element (slots b) slotId = Some slot -> context_start env = None ->
  let b' := state_after (loadSound env slotId soundName (AudioFile path)) b in
  let audioPlayer := next_handle (world b) in
  let final := wait_for_buffer (loaded_at env) 0 + 2 in
  result_of (loadSound env slotId soundName (AudioFile path)) b = Returned tt
  /\ ((construct env = None /\ fetch env = None /\ loaded_at env final = true
       /\ invalid_duration (duration env) = false
       /\ new_calls (world b) (world b')
          = release_calls slot
            ++ [NewPlayer audioPlayer path; Connect audioPlayer (VolumeNode (slotId - 1));
                Load audioPlayer path; Start audioPlayer]
       /\ element (slots b') slotId
          = Some (set_isPlaying true (set_isLoading false (set_player (Some audioPlayer)
                   (set_soundDef (Some (AudioFile path))
                      (set_soundName (Some soundName) slot))))))
      \/ ((is_Some (construct env) \/ is_Some (fetch env) \/ loaded_at env final = false
           \/ invalid_duration (duration env) = true)
          /\ exists error built,
              error ∈ possible_errors env path
              /\ built `sublist_of` [NewPlayer audioPlayer path;
                                     Connect audioPlayer (VolumeNode (slotId - 1));
                                     Load audioPlayer path]
              /\ new_calls (world b) (world b')
                 = release_calls slot ++ built
                   ++ [Alert (alert_text soundName path (message_of error))]
              /\ element (slots b') slotId = Some (reverted slot))).
Proof.
  intros wf found running.
  pose proof (well_formed_indexed b wf) as ids.
  unfold loadSound, loadSound_begin, loadSound_resume. js.
  rewrite (well_formed_control b slotId slot wf found). js.
  rewrite found. js. rewrite release_run. js. rewrite running. js.
  repeat (split_on_test; js); try discriminate.
  all: split; [reflexivity|].
  all: try (left; split_and!; try done;
            [ by apply negb_false_iff | new_calls_tac | slot_lookup ]).
  all: right; split;
    [ first [ left; by eexists | right; left; by eexists
            | right; right; left; by apply negb_true_iff
            | right; right; right; done ] | ].
  all: match goal with
       | |- context [Alert (alert_text _ _ (message_of ?e))] => exists e
       end.
  all: first [ exists []; split_and!; [| by apply sublist_nil_l | new_calls_tac | ]
             | eexists; split_and!; [| reflexivity | new_calls_tac | ] ].
  all: try slot_lookup.
  all: unfold possible_errors;
       repeat match goal with H : _ = Some _ |- _ => rewrite H end;
       rewrite !elem_of_app, !elem_of_cons; cbv [option_list option_rect];
       rewrite ?list_elem_of_singleton; naive_solver.
Qed.

(** *** Operating one slot leaves the others alone *)

Lemma slot_step_same slotId lo hi (array : list SoundSlot) :
  Forall2 (slot_step slotId lo hi) array array.
Proof.
  apply Forall_Forall2_diag, Forall_forall. intros slot _.
  split_and!; auto.
Qed.

Lemma slot_step_for_slot slotId lo hi (array array' : list SoundSlot) change :
  Forall2 (slot_step slotId lo hi) array array' ->
  (forall s, id (change s) = id s) ->
  (forall s h, h ∈ handles (change s) -> h ∈ handles s \/ lo <= h < hi) ->
  Forall2 (slot_step slotId lo hi) array (for_slot slotId change array').
Proof.
  intros step keeps gains. unfold for_slot. apply Forall2_fmap_r.
  eapply Forall2_impl; [exact step|].
  intros s s' before. unfold compose.
  destruct (Nat.eqb_spec (id s') slotId) as [hit|miss]; [|exact before].
  destruct before as (same_id & same & old). split_and!.
  - by rewrite keeps.
  - intros other. congruence.
  - intros h [inside|fresh]%gains; [|by right]. by apply old.
Qed.

(** Proves [P] for each call of a list by [tac]. *)
Ltac each_call tac :=
  repeat first [ apply Forall_nil_2 | apply Forall_cons_2; [tac|] ].

Ltac member_tac :=
  rewrite ?elem_of_app, ?elem_of_cons, ?elem_of_nil; naive_solver lia.

Lemma release_calls_owned slotId (slot : SoundSlot) lo hi :
  Forall (call_step slotId (handles slot) lo hi) (release_calls slot).
Proof.
  unfold release_calls, handles, sources.
  destruct (oscillator slot), (noise slot), (player slot), (filter slot);
    cbv [option_list option_rect]; cbn [app].
  all: each_call ltac:(split; cbn [subjects volume_nodes]; intros x; member_tac).
Qed.

(** The nodes of a slot after an update are those it had or new ones. *)
Ltac gains_tac :=
  let s := fresh "s" in
  let h := fresh "h" in
  intros s h; destruct s; unfold handles, sources;
  cbn [oscillator noise player filter set_soundName set_soundDef set_isPlaying
       set_isLoading set_volume set_isMuted set_oscillator set_noise set_player
       set_filter];
  cbv [option_list option_rect]; member_tac.

Ltac steps_tac :=
  repeat first
    [ apply slot_step_same
    | apply slot_step_for_slot; [| reflexivity | gains_tac ] ].

Ltac calls_tac slot :=
  first
    [ exists []; split; [ by rewrite app_nil_r | constructor ]
    | eexists; split; [ rewrite <- ?app_assoc; reflexivity | ];
      rewrite ?Forall_app; repeat split;
      try apply (release_calls_owned _ slot);
      each_call ltac:(
        split; cbn [subjects volume_nodes]; intros x;
        unfold handles, sources;
        repeat match goal with H : _ slot = Some _ |- _ => rewrite H end;
        cbv [option_list option_rect]; member_tac) ].

Lemma perform_confined (op : Operation) (slotId : nat) (b : Board) :
  well_formed b -> confined slotId b (state_after (perform op slotId) b).
Proof.
  intros wf. pose proof (well_formed_indexed b wf) as ids.
  unfold confined, held.
  destruct slotId as [|slotIndex].
  { destruct op; cbn [perform];
      unfold loadSound, loadSound_begin, toggleSlot, updateVolume, toggleMute, removeSound;
      js; cbn [element]; js.
    all: split_and!;
      [ steps_tac | reflexivity | reflexivity | lia
      | exists []; split; [by rewrite app_nil_r|constructor] ]. }
  destruct (element (slots b) (Datatypes.S slotIndex)) as [slot|] eqn:found.
  2: { destruct op; cbn [perform];
         unfold loadSound, loadSound_begin, toggleSlot, updateVolume, toggleMute,
           removeSound; js; rewrite ?found; js.
       all: repeat (split_on_test; js); try discriminate.
       all: split_and!;
         [ steps_tac | by rewrite ?length_insert | | lia
         | exists []; split; [by rewrite app_nil_r|constructor] ].
       all: intros i differs; try reflexivity.
       all: apply list_lookup_insert_ne; congruence. }
  destruct op; cbn [perform];
    unfold loadSound, loadSound_begin, loadSound_resume, toggleSlot, updateVolume,
      toggleMute, removeSound; js;
    try rewrite (well_formed_control b _ slot wf found); js;
    rewrite ?found; js; rewrite ?release_run; js.
  all: repeat (split_on_test; js); try discriminate.
  all: split_and!;
    [ steps_tac | by rewrite ?length_insert | | lia | calls_tac slot ].
  all: intros i differs; try reflexivity.
  all: apply list_lookup_insert_ne; congruence.
Qed.
(** *** Invariants of the mixer *)

Lemma tuned_for_slot (array : list SoundSlot) controls slotId change :
  tuned array controls ->
  (forall s, id (change s) = id s /\ isMuted (change s) = isMuted s
             /\ volume (change s) = volume s) ->
  tuned (for_slot slotId change array) controls.
Proof.
  intros before keeps i slot'. unfold for_slot. rewrite list_lookup_fmap.
  destruct (array !! i) as [slot|] eqn:found; [|done].
  cbn [fmap option_fmap option_map]. intros [= <-].
  destruct (before i slot found) as [same_id level].
  destruct (keeps slot) as (keeps_id & keeps_mute & keeps_volume).
  destruct (id slot =? slotId); [|done].
  by rewrite keeps_id, keeps_mute, keeps_volume.
Qed.

Lemma tuned_update (array : list SoundSlot) controls slotIndex change level :
  tuned array controls ->
  (forall s, id (change s) = id s) ->
  (forall s, array !! slotIndex = Some s ->
     level = if isMuted (change s) then NegInfinity else Decibels (volume (change s))) ->
  tuned (for_slot (Datatypes.S slotIndex) change array) (<[slotIndex := level]> controls).
Proof.
  intros before keeps agrees i slot'. unfold for_slot. rewrite list_lookup_fmap.
  destruct (array !! i) as [slot|] eqn:found; [|done].
  cbn [fmap option_fmap option_map]. intros [= <-].
  destruct (before i slot found) as [same_id level_before].
  rewrite same_id. destruct (Nat.eqb_spec (Datatypes.S i) (Datatypes.S slotIndex)) as [hit|miss].
  - injection hit as ->. split; [by rewrite keeps|].
    rewrite list_lookup_insert_eq by by eapply lookup_lt_Some.
    f_equal. by apply agrees.
  - split; [done|]. rewrite list_lookup_insert_ne by congruence. done.
Qed.

Lemma for_slot_missing (array : list SoundSlot) slotId change :
  indexed array -> element array slotId = None -> for_slot slotId change array = array.
Proof.
  intros ids missing. apply list_eq. intros i. unfold for_slot.
  rewrite list_lookup_fmap. destruct (array !! i) as [slot|] eqn:found; [|done].
  cbn [fmap option_fmap option_map]. rewrite (ids i slot found).
  destruct (Nat.eqb_spec (Datatypes.S i) slotId) as [<-|]; [|done].
  cbn [element] in missing. congruence.
Qed.

Ltac keeps_tac :=
  let s := fresh "s" in intros s; by destruct s.

Lemma perform_well_formed (op : Operation) (slotId : nat) (b : Board) :
  well_formed b -> well_formed (state_after (perform op slotId) b).
Proof.
  intros wf. unfold well_formed in *.
  destruct (element (slots b) slotId) as [slot|] eqn:found.
  - destruct op; cbn [perform];
      unfold loadSound, loadSound_begin, loadSound_resume, toggleSlot, updateVolume,
        toggleMute, removeSound; js;
      try rewrite (well_formed_control b _ slot wf found); js;
      rewrite ?found; js; rewrite ?release_run; js.
    all: repeat (split_on_test; js); try discriminate.
    all: try by (repeat first [ exact wf | apply tuned_for_slot; [|keeps_tac] ]).
    all: subst slotId; cbn [element] in found; (apply tuned_update; [done|done|]).
    + by intros s _.
    + intros s. rewrite found. intros [= <-]. cbn. by rewrite Heqb0.
    + intros s. rewrite found. intros [= <-]. cbn. by rewrite Heqb0.
  - destruct op; cbn [perform];
      unfold loadSound, loadSound_begin, loadSound_resume, toggleSlot, updateVolume,
        toggleMute, removeSound; js; rewrite ?found; js.
    all: repeat (split_on_test; js); try discriminate; try done.
    + subst slotId. by rewrite for_slot_missing by by try apply well_formed_indexed.
    + subst slotId. cbn [element] in found.
      apply tuned_update; [done|done|]. congruence.
Qed.

Lemma confined_separated slotId (b b' : Board) :
  well_formed b -> separated b -> confined slotId b b' -> separated b'.
Proof.
  intros wf [apart created] (steps & _ & _ & grows & _).
  pose proof (well_formed_indexed b wf) as ids.
  assert (forall i s', slots b' !! i = Some s' ->
            exists s, slots b !! i = Some s
                      /\ slot_step slotId (next_handle (world b)) (next_handle (world b')) s s')
    as origin.
  { intros i s' found'. by apply (Forall2_lookup_r _ _ _ _ _ steps found'). }
  split.
  - intros i j si' sj' h differ found_i found_j.
    destruct (origin i si' found_i) as (si & was_i & id_i & same_i & gained_i).
    destruct (origin j sj' found_j) as (sj & was_j & id_j & same_j & gained_j).
    pose proof (ids i si was_i) as at_i. pose proof (ids j sj was_j) as at_j.
    intros in_i in_j.
    destruct (decide (id si = slotId)) as [hit|miss].
    + assert (sj' = sj) as -> by (apply same_j; congruence).
      pose proof (created j sj h was_j in_j).
      destruct (gained_i h in_i) as [old|new]; [|lia].
      by apply (apart i j si sj h).
    + rewrite (same_i miss) in in_i.
      pose proof (created i si h was_i in_i).
      destruct (gained_j h in_j) as [old|new]; [|lia].
      by apply (apart i j si sj h).
  - intros i s' h found' inside.
    destruct (origin i s' found') as (s & was & _ & _ & gained).
    destruct (gained h inside) as [old|new]; [|lia].
    pose proof (created i s h was old). lia.
Qed.

Lemma mounted_well_formed : well_formed mounted.
Proof.
  intros i slot. do 4 (destruct i as [|i]; [by intros [= <-]|]). done.
Qed.

Lemma mounted_separated : separated mounted.
Proof.
  split.
  - intros i j si sj h _ found. do 4 (destruct i as [|i]; [injection found as <-; by intros _ ?%elem_of_nil|]). done.
  - intros i slot h found. do 4 (destruct i as [|i]; [injection found as <-; by intros ?%elem_of_nil|]). done.
Qed.

Lemma reachable_invariant (b : Board) :
  reachable b -> well_formed b /\ separated b.
Proof.
  induction 1 as [|b op slotId _ [wf apart]].
  - split; [apply mounted_well_formed | apply mounted_separated].
  - split; [by apply perform_well_formed|].
    eapply confined_separated; [exact wf | exact apart | by apply perform_confined].
Qed.


Lemma reachable_well_formed (b : Board) : reachable b -> well_formed b.
Proof. intros known. by apply reachable_invariant. Qed.

(** C9: an operation on one slot leaves the state of every other slot
    and its volume node as they were, and makes no call on a node held by
    another slot nor a connection to another slot's volume node. *)
Theorem operation_leaves_other_slots_alone
  (op : Operation) (slotId : nat) (b : Board) :
  reachable b ->
  let b' := state_after (perform op slotId) b in
  forall other slot,
    other <> slotId ->
    element (slots b) other = Some slot ->
    element (slots b') other = Some slot
    /\ element (volumeControls b') other = element (volumeControls b) other
    /\ Forall (fun c =>
                 (forall h, h ∈ handles slot -> h ∉ subjects c)
                 /\ (forall i, i ∈ volume_nodes c -> Datatypes.S i <> other))
              (new_calls (world b) (world b')).
Proof.
  intros known b' other slot differs found.
  destruct (reachable_invariant b known) as [wf [apart created]].
  pose proof (well_formed_indexed b wf) as ids.
  destruct (perform_confined op slotId b wf) as (steps & _ & controls & _ & cs & extends & owned).
  fold b' in steps, controls, extends, owned.
  destruct other as [|otherIndex]; [done|]. cbn [element] in *.
  pose proof (ids otherIndex slot found) as at_other.
  split_and!.
  - destruct (Forall2_lookup_l _ _ _ _ _ steps found) as (slot' & found' & _ & same & _).
    rewrite found'. f_equal. apply same. congruence.
  - apply controls. congruence.
  - rewrite (new_calls_app _ _ _ extends).
    eapply Forall_impl; [exact owned|].
    intros c [subjects_owned nodes_owned]. split.
    + intros h inside mentioned.
      destruct (subjects_owned h mentioned) as [mine|fresh].
      * unfold held in mine.
        destruct slotId as [|slotIndex]; cbn [element] in mine.
        { by apply elem_of_nil in mine. }
        destruct (slots b !! slotIndex) as [target|] eqn:found_target;
          [|by apply elem_of_nil in mine].
        apply (apart otherIndex slotIndex slot target h); [congruence|done..].
      * pose proof (created otherIndex slot h found inside). lia.
    + intros i connected same. apply differs. rewrite <- same. by apply nodes_owned.
Qed.


Lemma operation_leaves_other_slots_alone_witness :
  let b := state_after (perform (LoadSound loads_well "Green Noise" (Noise green)) 1) mounted in
  let b' := state_after (perform (LoadSound loads_well "Wind" (AudioFile "/wind.mp3")) 2) b in
  let slot :=
    {| id := 1; soundName := Some "Green Noise"; soundDef := Some (Noise green);
       isPlaying := true; isLoading := false; volume := (-12 # 1)%Q; isMuted := false;
       oscillator := None; noise := Some 0; player := None; filter := Some 1 |} in
  element (slots b') 1 = Some slot
  /\ element (volumeControls b') 1 = element (volumeControls b) 1
  /\ Forall (fun c =>
               (forall h, h ∈ handles slot -> h ∉ subjects c)
               /\ (forall i, i ∈ volume_nodes c -> Datatypes.S i <> 1))
            (new_calls (world b) (world b')).
Proof.
  intros b b' slot.
  apply (operation_leaves_other_slots_alone
           (LoadSound loads_well "Wind" (AudioFile "/wind.mp3")) 2 b).
  - apply reachable_perform, reachable_mounted.
  - lia.
  - reflexivity.
Defined.
(** *** What a failed load leaves behind *)

Lemma prefix_app (needle rest : string) : String.prefix needle (needle +:+ rest) = true.
Proof.
  induction needle as [|a needle IH]; [by destruct rest|].
  change (String.prefix (String a needle) (String a (needle +:+ rest)) = true).
  cbn [String.prefix]. by destruct (Ascii.ascii_dec a a).
Qed.

Lemma includes_here (needle rest : string) : includes needle (needle +:+ rest) = true.
Proof.
  destruct (needle +:+ rest) eqn:shape; cbn [includes];
    rewrite <- shape, prefix_app; done.
Qed.

Lemma prefix_self (text : string) : String.prefix text text = true.
Proof.
  induction text as [|a text IH]; [done|].
  cbn [String.prefix]. by destruct (Ascii.ascii_dec a a).
Qed.

Lemma includes_self (text : string) : includes text text = true.
Proof. destruct text; cbn [includes]; by rewrite prefix_self. Qed.

Lemma includes_skip (needle before rest : string) :
  includes needle rest = true -> includes needle (before +:+ rest) = true.
Proof.
  intros found. induction before as [|a before IH]; [exact found|].
  change (includes needle (String a (before +:+ rest)) = true).
  cbn [includes]. rewrite IH. apply orb_true_r.
Qed.

(** The alert names the file and the error. *)
Lemma alert_text_names (soundName filePath errorMessage : string) :
  includes filePath (alert_text soundName filePath errorMessage) = true
  /\ includes errorMessage (alert_text soundName filePath errorMessage) = true.
Proof.
  unfold alert_text. split.
  - do 5 apply includes_skip. apply includes_here.
  - do 9 apply includes_skip. apply includes_here.
Qed.

Lemma release_calls_start_nothing (slot : SoundSlot) (h : Handle) :
  Start h ∉ release_calls slot.
Proof.
  unfold release_calls.
  destruct (oscillator slot), (noise slot), (player slot), (filter slot); cbn [app];
    rewrite ?elem_of_cons, ?elem_of_nil; naive_solver.
Qed.


(** When the audio context does not start, nothing is created. *)
Lemma loadSound_without_context env b slotId slot soundName soundDef error :
  well_formed b -> element (slots b) slotId = Some slot ->
  context_start env = Some error ->
  let b' := state_after (loadSound env slotId soundName soundDef) b in
  result_of (loadSound env slotId soundName soundDef) b = Returned tt
  /\ new_calls (world b) (world b')
     = release_calls slot
       ++ [Alert (alert_text soundName
                    match soundDef with AudioFile path => path | _ => "N/A" end
                    (message_of error))]
  /\ element (slots b') slotId = Some (reverted slot).
Proof.
  intros wf found refused.
  pose proof (well_formed_indexed b wf) as ids.
  unfold loadSound, loadSound_begin. js.
  rewrite (well_formed_control b slotId slot wf found). js.
  rewrite found. js. rewrite release_run. js. rewrite refused. js.
  split_and!; [reflexivity | new_calls_tac | slot_lookup].
Qed.

Lemma invalid_duration_false (d : JsNumber) :
  invalid_duration d = false -> valid_duration d.
Proof.
  destruct d as [|q]; [done|]. cbn [invalid_duration]. intros nonzero.
  exists q. split; [done|]. intros zero. apply Qeq_bool_iff in zero. congruence.
Qed.

(** The mixer part of C7. *)
Lemma loadSound_starts_confirmed_buffer env b slotId slot soundName path :
  well_formed b -> element (slots b) slotId = Some slot ->
  let b' := state_after (loadSound env slotId soundName (AudioFile path)) b in
  let made := new_calls (world b) (world b') in
  let final := wait_for_buffer (loaded_at env) 0 + 2 in
  result_of (loadSound env slotId soundName (AudioFile path)) b = Returned tt
  /\ (forall h, Start h ∈ made ->
        loaded_at env final = true /\ valid_duration (duration env))
  /\ (loaded_at env final = false \/ invalid_duration (duration env) = true ->
      (forall h, Start h ∉ made)
      /\ (exists message, Alert message ∈ made)
      /\ exists slot', element (slots b') slotId = Some slot' /\ isPlaying slot' = false).
Proof.
  intros wf found b' made final.
  assert (forall built error,
            built `sublist_of` [NewPlayer (next_handle (world b)) path;
                                Connect (next_handle (world b)) (VolumeNode (slotId - 1));
                                Load (next_handle (world b)) path] ->
            forall h, Start h ∉ release_calls slot ++ built
                        ++ [Alert (alert_text soundName path (message_of error))])
    as silent.
  { intros built error part h. rewrite !elem_of_app, list_elem_of_singleton.
    intros [old|[new|alert]]; [by apply release_calls_start_nothing in old| |done].
    pose proof (elem_of_submseteq _ _ _ new (sublist_submseteq _ _ part)) as among.
    rewrite !elem_of_cons, elem_of_nil in among. naive_solver. }
  destruct (context_start env) as [refusal|] eqn:context.
  - destruct (loadSound_without_context env b slotId slot soundName (AudioFile path)
                refusal wf found context) as (returned & calls_made & slot_after).
    fold b' in calls_made, slot_after. fold made in calls_made.
    split; [exact returned|]. rewrite calls_made. split.
    + intros h. rewrite elem_of_app, list_elem_of_singleton.
      intros [old|alert]; [by apply release_calls_start_nothing in old|done].
    + intros _. split_and!.
      * intros h. rewrite elem_of_app, list_elem_of_singleton.
        intros [old|alert]; [by apply release_calls_start_nothing in old|done].
      * eexists. apply elem_of_app. right. by apply list_elem_of_singleton.
      * by exists (reverted slot).
  - destruct (loadSound_file env b slotId slot soundName path wf found context)
      as [returned [(built & fetched & loaded & valid & calls_made & slot_after)
                   |(cause & error & built & possible & part & calls_made & slot_after)]];
      fold b' in calls_made, slot_after; fold made in calls_made;
      (split; [exact returned|]); rewrite calls_made.
    + split.
      * intros _ _. split; [exact loaded|by apply invalid_duration_false].
      * intros [never|invalid]; [|congruence].
        unfold final in never. congruence.
    + split.
      * intros h started. by apply silent in started.
      * intros _. split_and!.
        -- intros h. by apply silent.
        -- eexists. rewrite !elem_of_app. right. right. by apply list_elem_of_singleton.
        -- by exists (reverted slot).
Qed.

(** The mixer part of C2. *)
Lemma failed_load_reverts_slot env b slotId slot soundName path :
  well_formed b -> element (slots b) slotId = Some slot ->
  context_start env = None -> load_fails env ->
  let b' := state_after (loadSound env slotId soundName (AudioFile path)) b in
  exists slot' error,
    element (slots b') slotId = Some slot'
    /\ isPlaying slot' = false /\ isLoading slot' = false
    /\ SoundBoard.soundName slot' = None /\ soundDef slot' = None /\ player slot' = None
    /\ error ∈ possible_errors env path
    /\ last (calls (world b')) = Some (Alert (alert_text soundName path (message_of error)))
    /\ includes path (alert_text soundName path (message_of error)) = true
    /\ includes (message_of error) (alert_text soundName path (message_of error)) = true.
Proof.
  intros wf found context fails b'.
  destruct (loadSound_file env b slotId slot soundName path wf found context)
    as [_ [(built & fetched & loaded & valid & _)
          |(_ & error & built & possible & _ & calls_made & slot_after)]].
  - destruct fails as [[? ?]|[[? ?]|[never|invalid]]]; congruence.
  - fold b' in calls_made, slot_after.
    exists (reverted slot), error. split_and!; try done.
    + unfold new_calls in calls_made.
      rewrite <- (take_drop (length (calls (world b))) (calls (world b'))), calls_made.
      by rewrite !app_assoc, last_snoc.
    + apply alert_text_names.
    + apply alert_text_names.
Qed.

(** *** A load that is still pending *)


Lemma removeSound_slot b slotId slot :
  well_formed b -> element (slots b) slotId = Some slot ->
  let b' := state_after (removeSound slotId) b in
  new_calls (world b) (world b') = release_calls slot
  /\ element (slots b') slotId
     = Some (set_filter None (set_player None (set_noise None (set_oscillator None
               (set_isPlaying false (set_soundDef None (set_soundName None slot)))))))
  /\ well_formed b'.
Proof.
  intros wf found.
  pose proof (well_formed_indexed b wf) as ids.
  unfold removeSound. js. rewrite found. js. rewrite release_run. js.
  split_and!; [new_calls_tac | |].
  - rewrite element_for_slot by done. by rewrite Nat.eqb_refl, found.
  - unfold well_formed. js. apply tuned_for_slot; [exact wf|keeps_tac].
Qed.






(** *** Loading a second sound into a slot *)

(** C1 fails in the mixer: [loadSound] stops and disposes what the slot
    holds but leaves the handles in the slot, so that after a noise and
    then a frequency have been loaded the slot holds two source handles
    (and the filter of the noise), of which the first is disposed; the
    play/pause button then stops and starts both. *)
Theorem reloaded_slot_keeps_the_disposed_source :
  let twice :=
    loadSound loads_well 1 "Green Noise" (Noise green) ;;
    loadSound loads_well 1 "Healing (432 Hz)" (Frequency 432) in
  let b := state_after twice mounted in
  let paused := state_after (toggleSlot 1) b in
  let resumed := state_after (toggleSlot 1) paused in
  (exists slot,
      element (slots b) 1 = Some slot
      /\ oscillator slot = Some 2 /\ noise slot = Some 0 /\ filter slot = Some 1
      /\ sources slot = [2; 0])
  /\ Dispose 0 ∈ calls (world b)
  /\ new_calls (world b) (world paused) = [Stop 2; Stop 0]
  /\ new_calls (world paused) (world resumed) = [Start 2; Start 0].
Proof.
  vm_compute. split_and!.
  - eexists. by split_and!.
  - repeat constructor.
  - reflexivity.
  - reflexivity.
Qed.

(** *** The play/pause button of an empty slot *)

(** C10: the play/pause handler of a slot that has no sound selected
    returns the state it was given: no slot changes and no call is
    made. *)
Theorem toggleSlot_without_sound_is_noop (b : Board) (slotId : nat) (slot : SoundSlot) :
  element (slots b) slotId = Some slot ->
  soundDef slot = None ->
  toggleSlot slotId b = (Returned tt, b).
Proof.
  intros found empty. unfold toggleSlot. js.
  rewrite found. js. rewrite empty. reflexivity.
Qed.

Lemma toggleSlot_without_sound_is_noop_witness :
  toggleSlot 3 mounted = (Returned tt, mounted).
Proof.
  apply (toggleSlot_without_sound_is_noop mounted 3 (empty_slot 3)); reflexivity.
Defined.

End BoardFacts.

(** ** The single player *)
Module PlayerFacts.
Import SoundPlayer.

Arguments setIsPlaying v s /.
Arguments setIsLoading v s /.
Arguments setSelectedSound v s /.
Arguments set_oscillatorRef v s /.
Arguments set_noiseRef v s /.
Arguments set_playerRef v s /.
Arguments setVolume v s /.
Arguments setIsMuted v s /.
Arguments set_previousVolume v s /.
Arguments setTimer v s /.
Arguments setSelectedTimerDuration v s /.
Arguments set_timerIntervalRef v s /.
Arguments set_isPlayingRef v s /.
Arguments stop_timer s /.
Arguments released p /.

Ltac js :=
  cbn [bind get ret throw modify try_catch attempt emit allocate new_node Tone_start
       stop_and_dispose optionally setInterval clearInterval settle_load
       state_after result_of browser with_browser
       next_handle next_timer timers calls log fst snd
       setIsPlaying setIsLoading setSelectedSound set_oscillatorRef set_noiseRef
       set_playerRef setVolume setIsMuted set_previousVolume setTimer
       setSelectedTimerDuration set_timerIntervalRef set_isPlayingRef
       stop_timer create_noise released truthy negb
       Player_hosted isPlaying isLoading selectedSound oscillatorRef noiseRef playerRef
       volume isMuted previousVolume timer selectedTimerDuration timerIntervalRef
       isPlayingRef world].

Lemma release_sources_run (p : Player) :
  release_sources p = (Returned tt, released p).
Proof.
  unfold release_sources, released, release_calls. js.
  destruct (oscillatorRef p) eqn:osc, (noiseRef p) eqn:gen, (playerRef p) eqn:file; js;
    rewrite ?osc, ?gen, ?file; cbn [app]; rewrite <- ?app_assoc, ?app_nil_r; cbn [app];
    try reflexivity.
  destruct p as [? ? ? ? ? ? ? ? ? ? ? ? ? []]. cbn in *. by subst.
Qed.

(** *** Volume and mute *)

Lemma handleVolumeChange_unmutes (p : Player) (newVolume : Z) :
  let p' := state_after (handleVolumeChange newVolume) p in
  volume p' = inject_Z newVolume /\ isMuted p' = false
  /\ volumeControl p' = Decibels (inject_Z newVolume).
Proof.
  unfold handleVolumeChange, volumeControl. js.
  destruct (isMuted p) eqn:muted; js; rewrite ?muted; done.
Qed.

Lemma toggleMute_twice (p : Player) :
  isMuted p = false ->
  let silenced := state_after toggleMute p in
  let restored := state_after toggleMute silenced in
  volumeControl silenced = NegInfinity
  /\ volumeControl restored = volumeControl p
  /\ volume restored = volume p
  /\ isMuted restored = false.
Proof.
  intros audible. unfold toggleMute, volumeControl. js. rewrite audible. js.
  done.
Qed.

(** *** Playing a file *)

(** The warning names the file and the error. *)
Lemma warning_text_names (path errorMessage : string) :
  includes path (warning_text path errorMessage) = true
  /\ includes errorMessage (warning_text path errorMessage) = true.
Proof.
  unfold warning_text. split.
  - apply BoardFacts.includes_skip, BoardFacts.includes_here.
  - do 3 apply BoardFacts.includes_skip. apply BoardFacts.includes_self.
Qed.

(** Starting a file from the stopped state: either every check passes,
    the player is started and the timer runs, or the player is disposed
    and a console warning names the file and the error.  In both cases
    the last statement of the handler sets [isPlaying]. *)
Lemma toggleSound_file env p path :
  isPlaying p = false ->
  lookup_sound SOUNDS (selectedSound p) = Some (AudioFile path) ->
  context_start env = None ->
  let p' := state_after (toggleSound env) p in
  let audioPlayer := next_handle (world p) in
  let attempts := wait_for_buffer (loaded_at env) 0 in
  let callback := match selectedTimerDuration p with Some _ => CountDown | None => CountUp end in
  result_of (toggleSound env) p = Returned tt
  /\ selectedSound p' = selectedSound p
  /\ isLoading p' = false
  /\ isPlaying p' = true
  /\ oscillatorRef p' = None /\ noiseRef p' = None
  /\ ((construct env = None /\ fetch env = None
       /\ (loaded_at env attempts = true \/ loaded_at env (attempts + 5) = true)
       /\ invalid_duration (duration env) = false
       /\ new_calls (world p) (world p')
          = release_calls p
            ++ [NewPlayer audioPlayer path; Connect audioPlayer (VolumeNode 0);
                Load audioPlayer path; Start audioPlayer;
                SetInterval (next_timer (world p)) callback]
       /\ playerRef p' = Some audioPlayer /\ isPlayingRef p' = true)
      \/ ((is_Some (construct env) \/ is_Some (fetch env)
           \/ (loaded_at env attempts = false /\ loaded_at env (attempts + 5) = false)
           \/ invalid_duration (duration env) = true)
          /\ exists error built,
              error ∈ possible_errors env path
              /\ built `sublist_of` [NewPlayer audioPlayer path;
                                     Connect audioPlayer (VolumeNode 0);
                                     Load audioPlayer path; Dispose audioPlayer]
              /\ (construct env = None -> Dispose audioPlayer ∈ built)
              /\ new_calls (world p) (world p')
                 = release_calls p ++ built
                   ++ [ConsoleWarn (warning_text path (describe error))]
              /\ playerRef p' = None /\ isPlayingRef p' = false
              /\ timerIntervalRef p' = timerIntervalRef p)).
Proof.
  intros stopped selected running.
  unfold toggleSound. js. rewrite stopped. js.
  rewrite release_sources_run. js. rewrite running. js. rewrite selected. js.
  unfold play_file, start_timer. js.
  repeat (split_on_test; js); try discriminate.
  all: split_and!; try reflexivity.
  all: try (left; split_and!; try done;
            [ first [ left; by apply negb_false_iff | right; by apply negb_false_iff ]
            | new_calls_tac ]).
  all: right; split;
    [ first [ left; by eexists | right; left; by eexists
            | right; right; left; split; by apply negb_true_iff
            | right; right; right; done ] | ].
  all: match goal with
       | |- context [ConsoleWarn (warning_text _ (describe ?e))] => exists e
       end.
  all: first [ exists []; split_and!;
               [| by apply sublist_nil_l | congruence | new_calls_tac | reflexivity..]
             | eexists; split_and!;
               [| reflexivity | intros _; rewrite !elem_of_cons; naive_solver
                | new_calls_tac | reflexivity..] ].
  all: unfold possible_errors;
       repeat match goal with H : _ = Some _ |- _ => rewrite H end;
       rewrite !elem_of_app, !elem_of_cons; cbv [option_list option_rect];
       rewrite ?list_elem_of_singleton; naive_solver.
Qed.


Lemma player_release_starts_nothing (p : Player) (h : Handle) :
  Start h ∉ release_calls p.
Proof.
  unfold release_calls.
  destruct (oscillatorRef p), (noiseRef p), (playerRef p); cbn [app];
    rewrite ?elem_of_cons, ?elem_of_nil; naive_solver.
Qed.

Lemma release_calls_no_alert (p : Player) :
  Forall (fun c => is_alert c = false) (release_calls p).
Proof.
  unfold release_calls.
  destruct (oscillatorRef p), (noiseRef p), (playerRef p); cbn [app];
    by repeat constructor.
Qed.

(** When the audio context does not start, the handler returns after
    the clean-up. *)
Lemma toggleSound_without_context env p error :
  isPlaying p = false -> context_start env = Some error ->
  state_after (toggleSound env) p = released p.
Proof.
  intros stopped refused. unfold toggleSound. js. rewrite stopped. js.
  rewrite release_sources_run. js. rewrite refused. js. by rewrite stopped.
Qed.

(** The player part of C7. *)
Lemma toggleSound_starts_confirmed_buffer env p path :
  isPlaying p = false ->
  lookup_sound SOUNDS (selectedSound p) = Some (AudioFile path) ->
  let p' := state_after (toggleSound env) p in
  let made := new_calls (world p) (world p') in
  let attempts := wait_for_buffer (loaded_at env) 0 in
  (forall h, Start h ∈ made ->
     (loaded_at env attempts = true \/ loaded_at env (attempts + 5) = true)
     /\ valid_duration (duration env))
  /\ (context_start env = None ->
      (loaded_at env attempts = false /\ loaded_at env (attempts + 5) = false)
      \/ invalid_duration (duration env) = true ->
      (forall h, Start h ∉ made)
      /\ (exists message, ConsoleWarn message ∈ made)
      /\ playerRef p' = None /\ isPlayingRef p' = false).
Proof.
  intros stopped selected p' made attempts.
  assert (forall built error,
            built `sublist_of` [NewPlayer (next_handle (world p)) path;
                                Connect (next_handle (world p)) (VolumeNode 0);
                                Load (next_handle (world p)) path;
                                Dispose (next_handle (world p))] ->
            forall h, Start h ∉ release_calls p ++ built
                        ++ [ConsoleWarn (warning_text path (describe error))])
    as silent.
  { intros built error part h. rewrite !elem_of_app, list_elem_of_singleton.
    intros [old|[new|warned]]; [by apply player_release_starts_nothing in old| |done].
    pose proof (elem_of_submseteq _ _ _ new (sublist_submseteq _ _ part)) as among.
    rewrite !elem_of_cons, elem_of_nil in among. naive_solver. }
  destruct (context_start env) as [refusal|] eqn:context.
  - split; [|done]. intros h. unfold made, p'.
    rewrite (toggleSound_without_context env p refusal stopped context).
    rewrite (new_calls_app (world p) (world (released p)) (release_calls p) eq_refl).
    intros started. by apply player_release_starts_nothing in started.
  - destruct (toggleSound_file env p path stopped selected context)
      as (_ & _ & _ & _ & _ & _ &
          [(built & fetched & loaded & valid & calls_made & _)
          |(cause & error & built & possible & part & _ & calls_made & no_player
            & not_playing & _)]);
      fold p' in calls_made; fold made in calls_made; rewrite calls_made.
    + split.
      * intros _ _. split; [exact loaded|by apply BoardFacts.invalid_duration_false].
      * intros _ [[early late]|invalid]; [|congruence].
        unfold attempts in early, late. destruct loaded; congruence.
    + split.
      * intros h started. by apply silent in started.
      * intros _ _. split_and!; [| |exact no_player|exact not_playing].
        -- intros h. by apply silent.
        -- eexists. rewrite !elem_of_app. right. right. by apply list_elem_of_singleton.
Qed.

(** The player part of C2, without the [isPlaying] flag. *)
Lemma failed_load_in_player env p path :
  isPlaying p = false ->
  lookup_sound SOUNDS (selectedSound p) = Some (AudioFile path) ->
  context_start env = None -> load_fails env ->
  let p' := state_after (toggleSound env) p in
  let made := new_calls (world p) (world p') in
  exists error,
    playerRef p' = None /\ isLoading p' = false /\ isPlayingRef p' = false
    /\ selectedSound p' = selectedSound p
    /\ (construct env = None -> Dispose (next_handle (world p)) ∈ made)
    /\ error ∈ possible_errors env path
    /\ last (calls (world p')) = Some (ConsoleWarn (warning_text path (describe error)))
    /\ Forall (fun c => is_alert c = false) made
    /\ includes path (warning_text path (describe error)) = true
    /\ includes (describe error) (warning_text path (describe error)) = true.
Proof.
  intros stopped selected context fails p' made.
  destruct (toggleSound_file env p path stopped selected context)
    as (_ & same_sound & loading_over & _ & _ & _ &
        [(built & fetched & loaded & valid & _)
        |(_ & error & built & possible & part & disposed & calls_made & no_player
          & not_playing & _)]).
  - destruct fails as [[? ?]|[[? ?]|[never|invalid]]]; try congruence.
    destruct loaded as [now|later]; congruence.
  - fold p' in calls_made, no_player, not_playing, same_sound, loading_over.
    fold made in calls_made.
    exists error. split_and!; try done.
    + intros builds. rewrite calls_made, !elem_of_app. right. left. by apply disposed.
    + unfold made, new_calls in calls_made.
      rewrite <- (take_drop (length (calls (world p))) (calls (world p'))), calls_made.
      by rewrite !app_assoc, last_snoc.
    + rewrite calls_made, !Forall_app. split_and!.
      * apply release_calls_no_alert.
      * eapply Forall_impl with (P := fun c => c ∈ built); [by apply Forall_forall|].
        intros c inside.
        pose proof (elem_of_submseteq _ _ _ inside (sublist_submseteq _ _ part)) as among.
        rewrite !elem_of_cons, elem_of_nil in among.
        destruct among as [->|[->|[->|[->|[]]]]]; done.
      * by repeat constructor.
    + apply warning_text_names.
    + apply warning_text_names.
Qed.

(** C2 fails in the player: the default sound is a file; when it is
    not found, the handler ends with [isPlaying] set, the sound stays
    selected, and the only report is a console warning. *)
Lemma failed_load_leaves_player_playing :
  let p' := state_after (toggleSound not_found) mounted in
  ~ (isPlaying p' = false
     /\ lookup_sound SOUNDS (selectedSound p') = None
     /\ exists message, Alert message ∈ calls (world p'))
  /\ isPlaying p' = true
  /\ selectedSound p' = "528 Hz (Love/Miracle)"
  /\ playerRef p' = None
  /\ calls (world p')
     = [NewPlayer 0 "/528hz.mp3"; Connect 0 (VolumeNode 0); Load 0 "/528hz.mp3"; Dispose 0;
        ConsoleWarn
          "Could not load audio file: /528hz.mp3. Error: Failed to fetch: 404 (Not Found)"].
Proof.
  vm_compute. split_and!; try reflexivity.
  intros [playing _]. discriminate playing.
Qed.

(** *** The timer *)

Lemma find_after_clear (timerId : nat) (registered : list (nat * TimerCallback)) :
  List.find (fun entry => fst entry =? timerId)
    (List.filter (fun entry => negb (fst entry =? timerId)) registered) = None.
Proof.
  induction registered as [|[other callback] rest IH]; [done|].
  cbn [List.filter fst]. destruct (other =? timerId) eqn:same; cbn [negb]; [exact IH|].
  cbn [List.find fst]. by rewrite same.
Qed.

(** Without a registered interval no second is ever counted. *)
Lemma seconds_pass_without_timer (p : Player) :
  timers (world p) = [] ->
  forall n timerId, state_after (seconds_pass n timerId) p = p.
Proof.
  intros none n timerId. induction n as [|n IH]; [done|].
  cbn [seconds_pass]. unfold interval_fires. js. rewrite none. cbn [List.find]. js.
  exact IH.
Qed.

Lemma interval_fires_returns (p : Player) (timerId : nat) :
  result_of (interval_fires timerId) p = Returned tt.
Proof.
  unfold interval_fires, countdown_tick, countup_tick. js.
  repeat (first [rewrite release_sources_run | split_on_test]; js); reflexivity.
Qed.

Lemma seconds_pass_next (n : nat) (p : Player) (timerId : nat) :
  state_after (seconds_pass (Datatypes.S n) timerId) p
  = state_after (seconds_pass n timerId) (state_after (interval_fires timerId) p).
Proof.
  pose proof (interval_fires_returns p timerId) as returns.
  cbn [seconds_pass]. unfold state_after, result_of in *. cbn [bind].
  destruct (interval_fires timerId p) as [r q]. cbn [fst snd] in *. by subst r.
Qed.

(** A countdown from [n + 1] seconds: the first [n] seconds decrement
    the timer, the last one stops the sound. *)
Lemma countdown_runs_out (n : nat) :
  forall (p : Player) (timerId : nat),
    List.find (fun entry => fst entry =? timerId) (timers (world p))
    = Some (timerId, CountDown) ->
    timerIntervalRef p = Some timerId ->
    timer p = Z.of_nat (Datatypes.S n) ->
    let p' := state_after (seconds_pass (Datatypes.S n) timerId) p in
    timer p' = 0%Z /\ isPlaying p' = false /\ isPlayingRef p' = false
    /\ sources p' = [] /\ timerIntervalRef p' = None
    /\ new_calls (world p) (world p') = ClearInterval timerId :: release_calls p
    /\ List.find (fun entry => fst entry =? timerId) (timers (world p')) = None.
Proof.
  induction n as [|n IH]; intros p timerId registered current remaining;
    rewrite seconds_pass_next.
  - cbn [seconds_pass]. unfold interval_fires, countdown_tick. js.
    rewrite registered. js.
    assert ((timer p <=? 1)%Z = true) as -> by (apply Z.leb_le; lia).
    js. rewrite current. js. rewrite release_sources_run. js.
    split_and!; try reflexivity.
    + new_calls_tac.
    + apply find_after_clear.
  - assert (state_after (interval_fires timerId) p
            = state_after (setTimer (timer p - 1)) p) as ->.
    { unfold interval_fires, countdown_tick. js. rewrite registered. js.
      by assert ((timer p <=? 1)%Z = false) as -> by (apply Z.leb_gt; lia). }
    apply (IH (state_after (setTimer (timer p - 1)) p) timerId); js; [done|done|lia].
Qed.

(** A count-up: every second adds one, and nothing else changes. *)
Lemma countup_counts (n : nat) :
  forall (p : Player) (timerId : nat),
    List.find (fun entry => fst entry =? timerId) (timers (world p))
    = Some (timerId, CountUp) ->
    let p' := state_after (seconds_pass n timerId) p in
    timer p' = (timer p + Z.of_nat n)%Z
    /\ isPlaying p' = isPlaying p /\ sources p' = sources p
    /\ timerIntervalRef p' = timerIntervalRef p /\ world p' = world p.
Proof.
  induction n as [|n IH]; intros p timerId registered.
  - cbn [seconds_pass]. js. split_and!; try reflexivity. lia.
  - rewrite seconds_pass_next.
    assert (state_after (interval_fires timerId) p
            = state_after (setTimer (timer p + 1)) p) as ->.
    { unfold interval_fires, countup_tick. js. by rewrite registered. }
    destruct (IH (state_after (setTimer (timer p + 1)) p) timerId registered)
      as (counted & playing & held & ref & same).
    split_and!.
    + etransitivity; [exact counted|].
      change (timer (state_after (setTimer (timer p + 1)) p)) with (timer p + 1)%Z.
      lia.
    + etransitivity; [exact playing|]. reflexivity.
    + etransitivity; [exact held|]. reflexivity.
    + etransitivity; [exact ref|]. reflexivity.
    + etransitivity; [exact same|]. reflexivity.
Qed.

(** Starting a noise from the stopped state starts the timer too. *)
Lemma toggleSound_noise env (p : Player) (name : NoiseName) :
  isPlaying p = false ->
  lookup_sound SOUNDS (selectedSound p) = Some (Noise name) ->
  context_start env = None -> construct env = None ->
  let p' := state_after (toggleSound env) p in
  let timerId := next_timer (world p) in
  let callback := match selectedTimerDuration p with Some _ => CountDown | None => CountUp end in
  isPlaying p' = true /\ isPlayingRef p' = true
  /\ sources p' = [next_handle (world p)]
  /\ timer p' = match selectedTimerDuration p with Some duration => duration | None => 0%Z end
  /\ timerIntervalRef p' = Some timerId
  /\ List.find (fun entry => fst entry =? timerId) (timers (world p'))
     = Some (timerId, callback).
Proof.
  intros stopped selected running builds.
  unfold toggleSound. js. rewrite stopped. js.
  rewrite release_sources_run. js. rewrite running. js. rewrite selected. js.
  unfold play_noise, start_timer. js.
  destruct name; js; rewrite builds; js.
  all: destruct (selectedTimerDuration p); js.
  all: split_and!; try reflexivity.
  all: cbn [List.find fst]; by rewrite Nat.eqb_refl.
Qed.

(** A player that holds one source releases exactly that one. *)
Lemma release_calls_single (p : Player) (h : Handle) :
  sources p = [h] -> release_calls p = [Stop h; Dispose h].
Proof.
  unfold sources, release_calls.
  destruct (oscillatorRef p), (noiseRef p), (playerRef p);
    cbv [option_list option_rect app]; intros held; inversion held; reflexivity.
Qed.

(** With a noise, a preset of [n + 1] seconds stops the sound after
    [n + 1] seconds. *)
Lemma noise_countdown_elapses env (p : Player) (name : NoiseName) (n : nat) :
  isPlaying p = false ->
  lookup_sound SOUNDS (selectedSound p) = Some (Noise name) ->
  context_start env = None -> construct env = None ->
  selectedTimerDuration p = Some (Z.of_nat (Datatypes.S n)) ->
  let playing := state_after (toggleSound env) p in
  let p' := state_after (seconds_pass (Datatypes.S n) (next_timer (world p))) playing in
  timer p' = 0%Z /\ isPlaying p' = false /\ sources p' = []
  /\ timerIntervalRef p' = None
  /\ new_calls (world playing) (world p')
     = [ClearInterval (next_timer (world p)); Stop (next_handle (world p));
        Dispose (next_handle (world p))].
Proof.
  intros stopped selected running builds preset playing p'.
  destruct (toggleSound_noise env p name stopped selected running builds)
    as (_ & _ & held & counting & ref & registered).
  fold playing in held, counting, ref, registered.
  rewrite preset in counting, registered.
  destruct (countdown_runs_out n playing (next_timer (world p)) registered ref counting)
    as (zero & over & _ & none & cleared & made & _).
  fold p' in zero, over, none, cleared, made.
  split_and!; try done.
  rewrite made. f_equal. by apply release_calls_single.
Qed.

(** C5 fails for the sounds that are played by an oscillator: the
    branch for a frequency does not set [isPlayingRef], so the handler
    registers no interval.  With "Healing (432 Hz)" selected and a preset
    of five minutes, the oscillator starts and plays on: however many
    seconds pass, nothing changes.  Without a preset no count-up starts
    either. *)
Theorem oscillator_plays_without_timer :
  let chosen := state_after (handleSoundChange "Healing (432 Hz)") mounted in
  let preset := state_after (handleTimerChange (Some 300%Z)) chosen in
  let playing := state_after (toggleSound loads_well) preset in
  let unbounded := state_after (toggleSound loads_well) chosen in
  (isPlaying playing = true /\ oscillatorRef playing = Some 0
   /\ calls (world playing) = [NewOscillator 0 432; Connect 0 (VolumeNode 0); Start 0]
   /\ timerIntervalRef playing = None /\ timers (world playing) = []
   /\ forall n timerId, state_after (seconds_pass n timerId) playing = playing)
  /\ (isPlaying unbounded = true /\ timer unbounded = 0%Z
      /\ timerIntervalRef unbounded = None
      /\ forall n timerId, state_after (seconds_pass n timerId) unbounded = unbounded).
Proof.
  intros chosen preset playing unbounded.
  split; split_and!; try reflexivity.
  - by apply seconds_pass_without_timer.
  - by apply seconds_pass_without_timer.
Qed.

(** Stopping with the play/pause button: the interval is cleared and
    the timer keeps its value. *)
Lemma toggleSound_stop env (p : Player) :
  isPlaying p = true ->
  let p' := state_after (toggleSound env) p in
  isPlaying p' = false /\ isPlayingRef p' = false /\ sources p' = []
  /\ timerIntervalRef p' = None
  /\ timer p' = timer p
  /\ selectedTimerDuration p' = selectedTimerDuration p.
Proof.
  intros playing. unfold toggleSound. js. rewrite playing. js.
  rewrite release_sources_run. js.
  destruct (timerIntervalRef p); js; by split_and!.
Qed.

(** Stopping by choosing another sound: the interval is cleared and the
    timer is reset to the preset, or to zero. *)
Lemma handleSoundChange_stop (p : Player) (value : string) :
  isPlaying p = true ->
  let p' := state_after (handleSoundChange value) p in
  isPlaying p' = false /\ isPlayingRef p' = false /\ sources p' = []
  /\ timerIntervalRef p' = None
  /\ timer p' = match selectedTimerDuration p with Some duration => duration | None => 0%Z end
  /\ selectedSound p' = value.
Proof.
  intros playing. unfold handleSoundChange. js. rewrite playing. js.
  rewrite release_sources_run. js.
  destruct (timerIntervalRef p); js; by split_and!.
Qed.

(** C6 fails for the play/pause button: a green noise is started with
    a preset of five minutes, one second passes, and the button is
    pressed.  The interval is cleared, but the timer still shows 299 and
    not the preset of 300; choosing another sound at the same moment
    would have reset it. *)
Theorem pause_keeps_the_elapsed_timer :
  let chosen := state_after (handleSoundChange "Green Noise") mounted in
  let preset := state_after (handleTimerChange (Some 300%Z)) chosen in
  let playing := state_after (toggleSound loads_well) preset in
  let later := state_after (interval_fires 1) playing in
  let paused := state_after (toggleSound loads_well) later in
  let changed := state_after (handleSoundChange "Bath Sound") later in
  timer playing = 300%Z /\ timerIntervalRef playing = Some 1
  /\ timer later = 299%Z
  /\ isPlaying paused = false /\ timerIntervalRef paused = None
  /\ timers (world paused) = []
  /\ selectedTimerDuration paused = Some 300%Z
  /\ timer paused = 299%Z
  /\ timer changed = 300%Z.
Proof. by vm_compute. Qed.

(** *** One source at a time *)

(** The player never holds more than one source: every start releases
    what is held before it creates a source. *)
Lemma player_holds_one_source (p : Player) :
  reachable p -> length (sources p) <= 1.
Proof.
  induction 1 as [|p action _ IH]; [cbn; lia|].
  destruct action; cbn [perform].
  - unfold toggleSound. js. destruct (isPlaying p); js; rewrite release_sources_run; js.
    + destruct (timerIntervalRef p); js; cbn; lia.
    + unfold play_frequency, play_noise, play_file, start_timer.
      repeat (split_on_test; js); cbn; lia.
  - unfold handleSoundChange. js. destruct (isPlaying p); js; [|exact IH].
    rewrite release_sources_run. js. destruct (timerIntervalRef p); js; cbn; lia.
  - unfold handleTimerChange. js. destruct (isPlaying p); js; exact IH.
  - unfold handleVolumeChange. js. destruct (isMuted p); js; exact IH.
  - unfold toggleMute. js. destruct (isMuted p); js; exact IH.
  - unfold interval_fires, countdown_tick, countup_tick. js.
    repeat (first [rewrite release_sources_run | split_on_test]; js);
      try exact IH; cbn; lia.
Qed.

End PlayerFacts.

(** ** Properties of both components *)

(** C2, as the code has it: when loading a file fails (the player
    cannot be built, the request or the decoding is rejected, the buffer
    never reports that it is loaded, or its duration is zero or [NaN]),
    a mixer slot ends stopped, not loading, with no sound selected and no
    player, and the last thing the handler does is an alert whose text
    holds the path and the message of the error.  The single player
    disposes and forgets its player and is not loading either, but it
    keeps the sound selected and raises no alert: the path and the
    message go to the console as a warning. *)
Theorem failed_file_load_is_cleaned_up
  (env : Env) (b : SoundBoard.Board) (slotId : nat) (slot : SoundBoard.SoundSlot)
  (soundName path : string) (p : SoundPlayer.Player) (selected : string) :
  SoundBoard.reachable b ->
  SoundBoard.element (SoundBoard.slots b) slotId = Some slot ->
  SoundPlayer.isPlaying p = false ->
  lookup_sound SOUNDS (SoundPlayer.selectedSound p) = Some (AudioFile selected) ->
  context_start env = None ->
  load_fails env ->
  let b' := state_after (SoundBoard.loadSound env slotId soundName (AudioFile path)) b in
  let p' := state_after (SoundPlayer.toggleSound env) p in
  (exists slot' error,
     SoundBoard.element (SoundBoard.slots b') slotId = Some slot'
     /\ SoundBoard.isPlaying slot' = false /\ SoundBoard.isLoading slot' = false
     /\ SoundBoard.soundName slot' = None /\ SoundBoard.soundDef slot' = None
     /\ SoundBoard.player slot' = None
     /\ error ∈ SoundBoard.possible_errors env path
     /\ last (calls (SoundBoard.world b'))
        = Some (Alert (SoundBoard.alert_text soundName path (message_of error)))
     /\ includes path (SoundBoard.alert_text soundName path (message_of error)) = true
     /\ includes (message_of error)
          (SoundBoard.alert_text soundName path (message_of error)) = true)
  /\ (exists error,
        SoundPlayer.playerRef p' = None /\ SoundPlayer.isLoading p' = false
        /\ SoundPlayer.isPlayingRef p' = false
        /\ SoundPlayer.selectedSound p' = SoundPlayer.selectedSound p
        /\ (construct env = None ->
            Dispose (next_handle (SoundPlayer.world p))
            ∈ new_calls (SoundPlayer.world p) (SoundPlayer.world p'))
        /\ error ∈ SoundPlayer.possible_errors env selected
        /\ last (calls (SoundPlayer.world p'))
           = Some (ConsoleWarn (SoundPlayer.warning_text selected (SoundPlayer.describe error)))
        /\ Forall (fun c => is_alert c = false)
             (new_calls (SoundPlayer.world p) (SoundPlayer.world p'))
        /\ includes selected
             (SoundPlayer.warning_text selected (SoundPlayer.describe error)) = true
        /\ includes (SoundPlayer.describe error)
             (SoundPlayer.warning_text selected (SoundPlayer.describe error)) = true).
Proof.
  intros reached found stopped chosen running fails b' p'. split.
  - apply (BoardFacts.failed_load_reverts_slot env b slotId slot); try assumption.
    by apply BoardFacts.reachable_well_formed.
  - by apply PlayerFacts.failed_load_in_player.
Qed.

Lemma failed_file_load_is_cleaned_up_witness :
  let b' := state_after (SoundBoard.loadSound not_found 2 "Wind" (AudioFile "/wind.mp3"))
              SoundBoard.mounted in
  let p' := state_after (SoundPlayer.toggleSound not_found) SoundPlayer.mounted in
  (exists slot' error,
     SoundBoard.element (SoundBoard.slots b') 2 = Some slot'
     /\ SoundBoard.isPlaying slot' = false /\ SoundBoard.isLoading slot' = false
     /\ SoundBoard.soundName slot' = None /\ SoundBoard.soundDef slot' = None
     /\ SoundBoard.player slot' = None
     /\ error ∈ SoundBoard.possible_errors not_found "/wind.mp3"
     /\ last (calls (SoundBoard.world b'))
        = Some (Alert (SoundBoard.alert_text "Wind" "/wind.mp3" (message_of error)))
     /\ includes "/wind.mp3"
          (SoundBoard.alert_text "Wind" "/wind.mp3" (message_of error)) = true
     /\ includes (message_of error)
          (SoundBoard.alert_text "Wind" "/wind.mp3" (message_of error)) = true)
  /\ (exists error,
        SoundPlayer.playerRef p' = None /\ SoundPlayer.isLoading p' = false
        /\ SoundPlayer.isPlayingRef p' = false
        /\ SoundPlayer.selectedSound p' = "528 Hz (Love/Miracle)"
        /\ (construct not_found = None ->
            Dispose 0 ∈ new_calls fresh_browser (SoundPlayer.world p'))
        /\ error ∈ SoundPlayer.possible_errors not_found "/528hz.mp3"
        /\ last (calls (SoundPlayer.world p'))
           = Some (ConsoleWarn
                     (SoundPlayer.warning_text "/528hz.mp3" (SoundPlayer.describe error)))
        /\ Forall (fun c => is_alert c = false)
             (new_calls fresh_browser (SoundPlayer.world p'))
        /\ includes "/528hz.mp3"
             (SoundPlayer.warning_text "/528hz.mp3" (SoundPlayer.describe error)) = true
        /\ includes (SoundPlayer.describe error)
             (SoundPlayer.warning_text "/528hz.mp3" (SoundPlayer.describe error)) = true).
Proof.
  apply (failed_file_load_is_cleaned_up not_found SoundBoard.mounted 2
           (SoundBoard.empty_slot 2) "Wind" "/wind.mp3" SoundPlayer.mounted "/528hz.mp3").
  - apply SoundBoard.reachable_mounted.
  - reflexivity.
  - reflexivity.
  - reflexivity.
  - reflexivity.
  - right. left. by eexists.
Defined.

(** C3: from an unmuted channel at volume [v], the mute button silences
    the volume node, and pressing it once more puts the node back at
    [v]; the volume that the channel remembers is [v] throughout.  This
    holds for the single player and for every slot of the mixer in every
    state that the mixer can reach. *)
Theorem mute_then_unmute_restores_volume
  (p : SoundPlayer.Player) (b : SoundBoard.Board) (slotId : nat)
  (slot : SoundBoard.SoundSlot) :
  SoundPlayer.isMuted p = false ->
  SoundBoard.reachable b ->
  SoundBoard.element (SoundBoard.slots b) slotId = Some slot ->
  SoundBoard.isMuted slot = false ->
  let silenced := state_after SoundPlayer.toggleMute p in
  let restored := state_after SoundPlayer.toggleMute silenced in
  let silenced_board := state_after (SoundBoard.toggleMute slotId) b in
  let restored_board := state_after (SoundBoard.toggleMute slotId) silenced_board in
  (SoundPlayer.volumeControl p = Decibels (SoundPlayer.volume p)
   /\ SoundPlayer.volumeControl silenced = NegInfinity
   /\ SoundPlayer.volumeControl restored = Decibels (SoundPlayer.volume p)
   /\ SoundPlayer.volume restored = SoundPlayer.volume p
   /\ SoundPlayer.isMuted restored = false)
  /\ (SoundBoard.element (SoundBoard.volumeControls b) slotId
      = Some (Decibels (SoundBoard.volume slot))
      /\ SoundBoard.element (SoundBoard.volumeControls silenced_board) slotId
         = Some NegInfinity
      /\ SoundBoard.element (SoundBoard.volumeControls restored_board) slotId
         = Some (Decibels (SoundBoard.volume slot))
      /\ SoundBoard.element (SoundBoard.slots restored_board) slotId = Some slot).
Proof.
  intros audible reached found unmuted silenced restored silenced_board restored_board.
  split.
  - destruct (PlayerFacts.toggleMute_twice p audible) as (quiet & back & level & flag).
    assert (SoundPlayer.volumeControl p = Decibels (SoundPlayer.volume p)) as before
      by (unfold SoundPlayer.volumeControl; by rewrite audible).
    split_and!;
      [exact before|exact quiet|by etransitivity; [exact back|]|exact level|exact flag].
  - pose proof (BoardFacts.reachable_well_formed b reached) as wf.
    pose proof (BoardFacts.perform_well_formed SoundBoard.ToggleMute slotId b wf) as wf'.
    destruct (BoardFacts.toggleMute_slot b slotId slot wf found) as (muted & quiet).
    change (state_after (SoundBoard.perform SoundBoard.ToggleMute slotId) b)
      with silenced_board in wf'.
    fold silenced_board in muted, quiet.
    destruct (BoardFacts.toggleMute_slot silenced_board slotId _ wf' muted)
      as (again & back).
    fold restored_board in again, back.
    rewrite (BoardFacts.well_formed_control b slotId slot wf found).
    rewrite quiet, back, again, unmuted.
    split_and!; try reflexivity.
    destruct slot; cbn in unmuted |- *. by rewrite unmuted.
Qed.

Lemma mute_then_unmute_restores_volume_witness :
  let p := state_after (SoundPlayer.handleVolumeChange (-25)) SoundPlayer.mounted in
  let b := state_after (SoundBoard.updateVolume 3 (-30 # 1)%Q) SoundBoard.mounted in
  let silenced := state_after SoundPlayer.toggleMute p in
  let restored := state_after SoundPlayer.toggleMute silenced in
  let silenced_board := state_after (SoundBoard.toggleMute 3) b in
  let restored_board := state_after (SoundBoard.toggleMute 3) silenced_board in
  (SoundPlayer.volumeControl p = Decibels (-25 # 1)%Q
   /\ SoundPlayer.volumeControl silenced = NegInfinity
   /\ SoundPlayer.volumeControl restored = Decibels (-25 # 1)%Q
   /\ SoundPlayer.volume restored = (-25 # 1)%Q
   /\ SoundPlayer.isMuted restored = false)
  /\ (SoundBoard.element (SoundBoard.volumeControls b) 3 = Some (Decibels (-30 # 1)%Q)
      /\ SoundBoard.element (SoundBoard.volumeControls silenced_board) 3 = Some NegInfinity
      /\ SoundBoard.element (SoundBoard.volumeControls restored_board) 3
         = Some (Decibels (-30 # 1)%Q)
      /\ SoundBoard.element (SoundBoard.slots restored_board) 3
         = Some (SoundBoard.set_volume (-30 # 1)%Q (SoundBoard.empty_slot 3))).
Proof.
  intros p b.
  apply (mute_then_unmute_restores_volume p b 3
           (SoundBoard.set_volume (-30 # 1)%Q (SoundBoard.empty_slot 3))).
  - reflexivity.
  - apply (SoundBoard.reachable_perform _ (SoundBoard.UpdateVolume (-30 # 1)%Q) 3).
    apply SoundBoard.reachable_mounted.
  - reflexivity.
  - reflexivity.
Defined.

(** C4: a change of the volume, whether the channel is muted or not,
    stores the new level, clears the mute flag and leaves the volume node
    of the channel at the new level.  This holds for the single player
    and for every slot of the mixer in every state it can reach; the rest
    of the slot is kept. *)
Theorem volume_change_unmutes
  (p : SoundPlayer.Player) (newVolume : Z)
  (b : SoundBoard.Board) (slotId : nat) (slot : SoundBoard.SoundSlot) (level : Q) :
  SoundBoard.reachable b ->
  SoundBoard.element (SoundBoard.slots b) slotId = Some slot ->
  let p' := state_after (SoundPlayer.handleVolumeChange newVolume) p in
  let b' := state_after (SoundBoard.updateVolume slotId level) b in
  (SoundPlayer.volume p' = inject_Z newVolume
   /\ SoundPlayer.isMuted p' = false
   /\ SoundPlayer.volumeControl p' = Decibels (inject_Z newVolume))
  /\ (exists slot',
        SoundBoard.element (SoundBoard.slots b') slotId = Some slot'
        /\ SoundBoard.volume slot' = level
        /\ SoundBoard.isMuted slot' = false
        /\ slot' = SoundBoard.set_isMuted false (SoundBoard.set_volume level slot))
  /\ SoundBoard.element (SoundBoard.volumeControls b') slotId = Some (Decibels level).
Proof.
  intros reached found p' b'. split; [apply PlayerFacts.handleVolumeChange_unmutes|].
  pose proof (BoardFacts.reachable_well_formed b reached) as wf.
  destruct (BoardFacts.updateVolume_slot b slotId slot level wf found) as (stored & set).
  split; [|exact set]. eexists. split; [exact stored|]. by destruct slot.
Qed.

Lemma volume_change_unmutes_witness :
  let p := state_after SoundPlayer.toggleMute SoundPlayer.mounted in
  let b := state_after (SoundBoard.toggleMute 2) SoundBoard.mounted in
  let p' := state_after (SoundPlayer.handleVolumeChange (-20)) p in
  let b' := state_after (SoundBoard.updateVolume 2 (-20 # 1)%Q) b in
  (SoundPlayer.isMuted p = true
   /\ SoundBoard.element (SoundBoard.volumeControls b) 2 = Some NegInfinity)
  /\ (SoundPlayer.volume p' = inject_Z (-20)
      /\ SoundPlayer.isMuted p' = false
      /\ SoundPlayer.volumeControl p' = Decibels (inject_Z (-20)))
  /\ (exists slot',
        SoundBoard.element (SoundBoard.slots b') 2 = Some slot'
        /\ SoundBoard.volume slot' = (-20 # 1)%Q
        /\ SoundBoard.isMuted slot' = false
        /\ slot' = SoundBoard.set_isMuted false
                     (SoundBoard.set_volume (-20 # 1)%Q
                        (SoundBoard.set_isMuted true (SoundBoard.empty_slot 2))))
  /\ SoundBoard.element (SoundBoard.volumeControls b') 2 = Some (Decibels (-20 # 1)%Q).
Proof.
  intros p b. split; [by split|].
  apply (volume_change_unmutes p (-20) b 2
           (SoundBoard.set_isMuted true (SoundBoard.empty_slot 2)) (-20 # 1)%Q).
  - apply (SoundBoard.reachable_perform _ SoundBoard.ToggleMute 2).
    apply SoundBoard.reachable_mounted.
  - reflexivity.
Defined.

(** The wait on a buffer that is loaded at once, on one that is loaded
    at the third poll, and on one that is never loaded. *)
Lemma wait_for_buffer_examples :
  wait_for_buffer (loaded_at loads_well) 0 = 0
  /\ wait_for_buffer (loaded_at loads_slowly) 0 = 3
  /\ wait_for_buffer (loaded_at never_loads) 0 = maxAttempts.
Proof. by vm_compute. Qed.

(** What the two handlers do with those buffers, and with a buffer of
    duration zero. *)
Lemma file_load_examples :
  let board env :=
    calls (SoundBoard.world
             (state_after (SoundBoard.loadSound env 1 "Wind" (AudioFile "/wind.mp3"))
                SoundBoard.mounted)) in
  let player env :=
    calls (SoundPlayer.world (state_after (SoundPlayer.toggleSound env) SoundPlayer.mounted)) in
  board loads_slowly
  = [NewPlayer 0 "/wind.mp3"; Connect 0 (VolumeNode 0); Load 0 "/wind.mp3"; Start 0]
  /\ board never_loads
     = [NewPlayer 0 "/wind.mp3"; Connect 0 (VolumeNode 0); Load 0 "/wind.mp3";
        Alert (SoundBoard.alert_text "Wind" "/wind.mp3"
                 (message_of (buffer_not_loaded "/wind.mp3")))]
  /\ board empty_file
     = [NewPlayer 0 "/wind.mp3"; Connect 0 (VolumeNode 0); Load 0 "/wind.mp3";
        Alert (SoundBoard.alert_text "Wind" "/wind.mp3"
                 (message_of (invalid_duration_error "/wind.mp3")))]
  /\ player loads_slowly
     = [NewPlayer 0 "/528hz.mp3"; Connect 0 (VolumeNode 0); Load 0 "/528hz.mp3"; Start 0;
        SetInterval 1 CountUp]
  /\ player never_loads
     = [NewPlayer 0 "/528hz.mp3"; Connect 0 (VolumeNode 0); Load 0 "/528hz.mp3"; Dispose 0;
        ConsoleWarn (SoundPlayer.warning_text "/528hz.mp3"
                       (message_of (buffer_not_loaded "/528hz.mp3")))]
  /\ player empty_file
     = [NewPlayer 0 "/528hz.mp3"; Connect 0 (VolumeNode 0); Load 0 "/528hz.mp3"; Dispose 0;
        ConsoleWarn (SoundPlayer.warning_text "/528hz.mp3"
                       (message_of (invalid_duration_error "/528hz.mp3")))].
Proof. by vm_compute. Qed.

(** C7: the wait for the buffer is a total function that polls at most
    [maxAttempts] times, and it stops early only at a poll that finds the
    buffer loaded.  After one more pause (0.2 s in the mixer, 0.5 s in
    the single player) the handler checks the buffer again: it starts the
    player only if the buffer is then loaded and its duration is neither
    zero nor [NaN]; if not, it starts nothing and reports the failure (an
    alert from the mixer, a warning on the console from the single
    player) and holds no playing source. *)
Theorem buffer_wait_is_bounded_and_guards_start
  (env : Env) (b : SoundBoard.Board) (slotId : nat) (slot : SoundBoard.SoundSlot)
  (soundName path : string) (p : SoundPlayer.Player) (selected : string) :
  SoundBoard.reachable b ->
  SoundBoard.element (SoundBoard.slots b) slotId = Some slot ->
  SoundPlayer.isPlaying p = false ->
  lookup_sound SOUNDS (SoundPlayer.selectedSound p) = Some (AudioFile selected) ->
  let attempts := wait_for_buffer (loaded_at env) 0 in
  let b' := state_after (SoundBoard.loadSound env slotId soundName (AudioFile path)) b in
  let p' := state_after (SoundPlayer.toggleSound env) p in
  let made_by_board := new_calls (SoundBoard.world b) (SoundBoard.world b') in
  let made_by_player := new_calls (SoundPlayer.world p) (SoundPlayer.world p') in
  (attempts <= maxAttempts
   /\ (loaded_at env attempts = true \/ attempts = maxAttempts))
  /\ (result_of (SoundBoard.loadSound env slotId soundName (AudioFile path)) b = Returned tt
      /\ (forall h, Start h ∈ made_by_board ->
            loaded_at env (attempts + 2) = true /\ valid_duration (duration env))
      /\ (loaded_at env (attempts + 2) = false \/ invalid_duration (duration env) = true ->
          (forall h, Start h ∉ made_by_board)
          /\ (exists message, Alert message ∈ made_by_board)
          /\ exists slot', SoundBoard.element (SoundBoard.slots b') slotId = Some slot'
                           /\ SoundBoard.isPlaying slot' = false))
  /\ ((forall h, Start h ∈ made_by_player ->
         (loaded_at env attempts = true \/ loaded_at env (attempts + 5) = true)
         /\ valid_duration (duration env))
      /\ (context_start env = None ->
          (loaded_at env attempts = false /\ loaded_at env (attempts + 5) = false)
          \/ invalid_duration (duration env) = true ->
          (forall h, Start h ∉ made_by_player)
          /\ (exists message, ConsoleWarn message ∈ made_by_player)
          /\ SoundPlayer.playerRef p' = None /\ SoundPlayer.isPlayingRef p' = false)).
Proof.
  intros reached found stopped chosen attempts b' p' made_by_board made_by_player.
  assert (0 <= maxAttempts) as room by (unfold maxAttempts; lia).
  split_and!.
  - by apply wait_for_buffer_bounds.
  - by apply wait_for_buffer_exit.
  - apply (BoardFacts.loadSound_starts_confirmed_buffer env b slotId slot soundName path);
      [by apply BoardFacts.reachable_well_formed|exact found].
  - by apply (BoardFacts.loadSound_starts_confirmed_buffer env b slotId slot soundName path);
      [apply BoardFacts.reachable_well_formed|].
  - by apply (BoardFacts.loadSound_starts_confirmed_buffer env b slotId slot soundName path);
      [apply BoardFacts.reachable_well_formed|].
  - by apply (PlayerFacts.toggleSound_starts_confirmed_buffer env p selected).
  - by apply (PlayerFacts.toggleSound_starts_confirmed_buffer env p selected).
Qed.

Lemma buffer_wait_is_bounded_and_guards_start_witness :
  let env := loads_slowly in
  let b := SoundBoard.mounted in
  let p := SoundPlayer.mounted in
  let attempts := wait_for_buffer (loaded_at env) 0 in
  let b' := state_after (SoundBoard.loadSound env 1 "Wind" (AudioFile "/wind.mp3")) b in
  let p' := state_after (SoundPlayer.toggleSound env) p in
  let made_by_board := new_calls (SoundBoard.world b) (SoundBoard.world b') in
  let made_by_player := new_calls (SoundPlayer.world p) (SoundPlayer.world p') in
  (attempts <= maxAttempts
   /\ (loaded_at env attempts = true \/ attempts = maxAttempts))
  /\ (result_of (SoundBoard.loadSound env 1 "Wind" (AudioFile "/wind.mp3")) b = Returned tt
      /\ (forall h, Start h ∈ made_by_board ->
            loaded_at env (attempts + 2) = true /\ valid_duration (duration env))
      /\ (loaded_at env (attempts + 2) = false \/ invalid_duration (duration env) = true ->
          (forall h, Start h ∉ made_by_board)
          /\ (exists message, Alert message ∈ made_by_board)
          /\ exists slot', SoundBoard.element (SoundBoard.slots b') 1 = Some slot'
                           /\ SoundBoard.isPlaying slot' = false))
  /\ ((forall h, Start h ∈ made_by_player ->
         (loaded_at env attempts = true \/ loaded_at env (attempts + 5) = true)
         /\ valid_duration (duration env))
      /\ (context_start env = None ->
          (loaded_at env attempts = false /\ loaded_at env (attempts + 5) = false)
          \/ invalid_duration (duration env) = true ->
          (forall h, Start h ∉ made_by_player)
          /\ (exists message, ConsoleWarn message ∈ made_by_player)
          /\ SoundPlayer.playerRef p' = None /\ SoundPlayer.isPlayingRef p' = false)).
Proof.
  apply (buffer_wait_is_bounded_and_guards_start loads_slowly SoundBoard.mounted 1
           (SoundBoard.empty_slot 1) "Wind" "/wind.mp3" SoundPlayer.mounted "/528hz.mp3").
  - apply SoundBoard.reachable_mounted.
  - reflexivity.
  - reflexivity.
  - reflexivity.
Defined.
(** ** More about the mixer *)
Module MixerFacts.
Import SoundBoard.
Import BoardFacts.

Arguments handleMouseMove slotId clientY top height s /.
Arguments handleFaderMouseDown slotId clientY top height s /.
Arguments handleSelectChange env slotId soundName s /.

(** *** What an operation does to its slot *)

Ltac same_slot := by (match goal with s : SoundSlot |- _ => destruct s end).

(** Loading a sound of any kind: either the source is built, wired to
    the volume node of the slot and started, or the slot is reverted and
    an alert reports the error. *)
Lemma loadSound_outcome env b slotId slot soundName soundDef :
  well_formed b -> element (slots b) slotId = Some slot ->
  let b' := state_after (loadSound env slotId soundName soundDef) b in
  let h := next_handle (world b) in
  result_of (loadSound env slotId soundName soundDef) b = Returned tt
  /\ ((context_start env = None /\ construct env = None
       /\ new_calls (world b) (world b')
          = release_calls slot ++ created_for soundDef h (slotId - 1) ++ [Start h]
       /\ element (slots b') slotId = Some (loaded soundName soundDef h slot))
      \/ (exists error built,
            built `sublist_of` created_for soundDef h (slotId - 1)
            /\ new_calls (world b) (world b')
               = release_calls slot ++ built
                 ++ [Alert (alert_text soundName (shown_path soundDef) (message_of error))]
            /\ element (slots b') slotId = Some (reverted slot))).
Proof.
  intros wf found b' h.
  destruct (context_start env) as [refusal|] eqn:context.
  { destruct (loadSound_without_context env b slotId slot soundName soundDef refusal
                wf found context) as (returned & made & after).
    split; [exact returned|]. right. exists refusal, [].
    split_and!; [apply sublist_nil_l|exact made|exact after]. }
  destruct soundDef as [hz|name|path].
  - pose proof (well_formed_indexed b wf) as ids.
    subst b' h. unfold loadSound, loadSound_begin. js.
    rewrite (well_formed_control b slotId slot wf found). js.
    rewrite found. js. rewrite release_run. js. rewrite context. js.
    destruct (construct env) as [failure|] eqn:builds; js.
    + split; [reflexivity|]. right. exists failure, [].
      split_and!; [apply sublist_nil_l|new_calls_tac|slot_lookup].
    + split; [reflexivity|]. left.
      split_and!; [done|done|new_calls_tac|slot_lookup].
  - pose proof (well_formed_indexed b wf) as ids.
    subst b' h. unfold loadSound, loadSound_begin. js.
    rewrite (well_formed_control b slotId slot wf found). js.
    rewrite found. js. rewrite release_run. js. rewrite context. js.
    destruct (construct env) as [failure|] eqn:builds.
    + destruct name; js; rewrite builds; js.
      all: split; [reflexivity|]; right; exists failure, [].
      all: split_and!; [apply sublist_nil_l|new_calls_tac|slot_lookup].
    + destruct name; js; rewrite builds; js.
      all: split; [reflexivity|]; left.
      all: split_and!; [done|done|new_calls_tac|slot_lookup].
  - destruct (loadSound_file env b slotId slot soundName path wf found context)
      as [returned [(builds & _ & _ & _ & made & after)
                   |(_ & error & built & _ & part & made & after)]].
    + split; [exact returned|]. left. split_and!; [done|done|exact made|].
      exact after.
    + split; [exact returned|]. right. exists error, built. by split_and!.
Qed.

(** The play/pause button stops or starts every source of the slot. *)
Lemma toggleSlot_slot b slotId slot :
  well_formed b -> element (slots b) slotId = Some slot ->
  let b' := state_after (toggleSlot slotId) b in
  result_of (toggleSlot slotId) b = Returned tt
  /\ element (slots b') slotId
     = Some (if truthy (soundDef slot)
             then set_isPlaying (negb (isPlaying slot)) slot else slot)
  /\ new_calls (world b) (world b')
     = (if truthy (soundDef slot)
        then (if isPlaying slot then Stop else Start) <$> sources slot
        else [])
  /\ volumeControls b' = volumeControls b.
Proof.
  intros wf found. pose proof (well_formed_indexed b wf) as ids.
  unfold toggleSlot. js. rewrite found. js.
  destruct (truthy (soundDef slot)); cbn [negb]; js.
  2: { split_and!; try done. unfold new_calls. by rewrite drop_all. }
  unfold sources.
  destruct (isPlaying slot) eqn:playing, (oscillator slot), (noise slot), (player slot);
    js; cbv [option_list option_rect]; cbn [app fmap list_fmap].
  all: split_and!; [reflexivity| | |reflexivity].
  all: try new_calls_tac.
  all: try (unfold new_calls; by rewrite drop_all).
  all: rewrite element_for_slot by done; by rewrite Nat.eqb_refl, found.
Qed.

Lemma perform_outcome (op : Operation) (slotId : nat) (b : Board) (slot : SoundSlot) :
  well_formed b -> element (slots b) slotId = Some slot ->
  result_of (perform op slotId) b = Returned tt
  /\ exists slot',
       element (slots (state_after (perform op slotId) b)) slotId = Some slot'
       /\ outcome (next_handle (world b)) op slot slot'.
Proof.
  intros wf found. destruct op as [env soundName soundDef| |newVolume| |]; cbn [perform outcome].
  - destruct (loadSound_outcome env b slotId slot soundName soundDef wf found)
      as [returned [(_ & _ & _ & after)|(error & built & _ & _ & after)]].
    + split; [exact returned|]. eexists. split; [exact after|]. by left.
    + split; [exact returned|]. eexists. split; [exact after|]. by right.
  - destruct (toggleSlot_slot b slotId slot wf found) as (returned & after & _).
    split; [exact returned|]. by eexists.
  - destruct (updateVolume_slot b slotId slot newVolume wf found) as (after & _).
    split; [reflexivity|]. by eexists.
  - destruct (toggleMute_slot b slotId slot wf found) as (after & _).
    split; [|by eexists]. unfold toggleMute. js. by rewrite found.
  - destruct (removeSound_slot b slotId slot wf found) as (_ & after & _).
    split; [|by eexists]. unfold removeSound. js. rewrite found. js. by rewrite release_run.
Qed.

(** A property of single slots that every operation keeps for the slot
    it is applied to holds for all slots of the mixer afterwards. *)
Lemma perform_preserves (P : SoundSlot -> Prop) (op : Operation) (slotId : nat) (b : Board) :
  well_formed b ->
  (forall slot slot',
      element (slots b) slotId = Some slot -> P slot ->
      outcome (next_handle (world b)) op slot slot' -> P slot') ->
  Forall P (slots b) -> Forall P (slots (state_after (perform op slotId) b)).
Proof.
  intros wf keeps before.
  pose proof (well_formed_indexed b wf) as ids.
  destruct (perform_confined op slotId b wf) as (steps & _).
  apply Forall_lookup. intros i slot' found'.
  destruct (Forall2_lookup_r _ _ _ _ _ steps found') as (slot & found & _ & same & _).
  pose proof (proj1 (Forall_lookup _ _) before i slot found) as holds.
  destruct (decide (id slot = slotId)) as [hit|miss]; [|by rewrite (same miss)].
  rewrite (ids i slot found) in hit. subst slotId.
  destruct (perform_outcome op (Datatypes.S i) b slot wf found)
    as (_ & operated & after & result).
  cbn [element] in after. rewrite found' in after. injection after as <-.
  by apply (keeps slot slot').
Qed.

(** The mixer always has four slots and four volume nodes. *)
Lemma reachable_lengths (b : Board) :
  reachable b -> length (slots b) = 4 /\ length (volumeControls b) = 4.
Proof.
  induction 1 as [|b op slotId known [four_slots four_controls]]; [done|].
  destruct (perform_confined op slotId b (reachable_well_formed b known))
    as (steps & controls & _).
  apply Forall2_length in steps. split; congruence.
Qed.

Lemma reachable_element (b : Board) (slotId : nat) :
  reachable b ->
  (1 <= slotId <= 4 -> is_Some (element (slots b) slotId))
  /\ (slotId = 0 \/ 4 < slotId ->
      element (slots b) slotId = None /\ element (volumeControls b) slotId = None).
Proof.
  intros known. destruct (reachable_lengths b known) as [four_slots four_controls].
  split.
  - intros inside. destruct slotId as [|slotIndex]; [lia|]. cbn [element].
    apply lookup_lt_is_Some. lia.
  - intros [->|outside]; [done|]. destruct slotId as [|slotIndex]; [lia|]. cbn [element].
    split; apply lookup_ge_None; lia.
Qed.

(** *** Errors and slot numbers *)

(** On each of the four slots an operation returns normally, whatever
    the environment does: a failure of [Tone.start], of a constructor or
    of the loading of a file does not leave the handler.  (The other
    calls on a node, [connect], [start], [stop] and [dispose], are taken
    to succeed, here as everywhere.) *)
Theorem operation_returns_normally (op : Operation) (slotId : nat) (b : Board) :
  reachable b -> 1 <= slotId <= 4 ->
  result_of (perform op slotId) b = Returned tt.
Proof.
  intros known inside.
  destruct (proj1 (reachable_element b slotId known) inside) as [slot found].
  by destruct (perform_outcome op slotId b slot (reachable_well_formed b known) found).
Qed.

Lemma operation_returns_normally_witness :
  result_of (perform (LoadSound not_found "Wind" (AudioFile "/wind.mp3")) 4)
    (state_after (perform (LoadSound loads_well "Bath Sound" (Noise bath)) 4) mounted)
  = Returned tt.
Proof.
  apply operation_returns_normally.
  - apply reachable_perform, reachable_mounted.
  - lia.
Defined.



(** *** Slots at rest *)





(** *** Removing and pausing *)

Lemma for_slot_same (prev : list SoundSlot) slotId change slot :
  indexed prev -> element prev slotId = Some slot -> change slot = slot ->
  for_slot slotId change prev = prev.
Proof.
  intros ids found fixed. apply list_eq. intros i. unfold for_slot.
  rewrite list_lookup_fmap. destruct (prev !! i) as [s|] eqn:at_i; [|done].
  cbn [fmap option_fmap option_map]. rewrite (ids i s at_i).
  destruct (Nat.eqb_spec (Datatypes.S i) slotId) as [<-|]; [|done].
  cbn [element] in found. congruence.
Qed.

Lemma logged_nothing (b : Board) : logged [] b = b.
Proof. destruct b as [? ? []]. unfold logged. cbn. by rewrite app_nil_r. Qed.

(** The slots that an operation is not applied to stay as they are. *)
Lemma perform_elsewhere (op : Operation) (slotId other : nat) (b : Board) :
  well_formed b -> other <> slotId ->
  element (slots (state_after (perform op slotId) b)) other = element (slots b) other.
Proof.
  intros wf differs. pose proof (well_formed_indexed b wf) as ids.
  destruct (perform_confined op slotId b wf) as (steps & _).
  destruct other as [|i]; [done|]. cbn [element].
  destruct (slots b !! i) as [slot|] eqn:found.
  - destruct (Forall2_lookup_l _ _ _ _ _ steps found) as (slot' & found' & _ & same & _).
    rewrite found'. f_equal. apply same. rewrite (ids i slot found). congruence.
  - apply lookup_ge_None. apply lookup_ge_None in found.
    by rewrite <- (Forall2_length _ _ _ steps).
Qed.

(** The calls of an operation, appended to the log. *)
Lemma perform_extends (op : Operation) (slotId : nat) (b : Board) :
  well_formed b ->
  let b' := state_after (perform op slotId) b in
  calls (world b') = calls (world b) ++ new_calls (world b) (world b').
Proof.
  intros wf b'. destruct (perform_confined op slotId b wf) as (_ & _ & _ & _ & cs & made & _).
  fold b' in made. by rewrite (new_calls_app _ _ _ made).
Qed.

(** Removing a sound empties the slot but keeps its volume and its mute
    state, and leaves its volume node alone; removing once more does
    nothing at all. *)
Theorem removeSound_twice (b : Board) (slotId : nat) (slot : SoundSlot) :
  reachable b -> element (slots b) slotId = Some slot ->
  let once := state_after (removeSound slotId) b in
  element (slots once) slotId = Some (emptied slot)
  /\ volume (emptied slot) = volume slot /\ isMuted (emptied slot) = isMuted slot
  /\ sources (emptied slot) = []
  /\ volumeControls once = volumeControls b
  /\ removeSound slotId once = (Returned tt, once).
Proof.
  intros known found once.
  pose proof (reachable_well_formed b known) as wf.
  destruct (removeSound_slot b slotId slot wf found) as (_ & after & wf_once).
  fold once in after, wf_once.
  split_and!; [exact after|by destruct slot|by destruct slot|done| |].
  - subst once. unfold removeSound. js. rewrite found. js. by rewrite release_run.
  - unfold removeSound. js. rewrite after. js. rewrite release_run.
    change (release_calls (emptied slot)) with (@nil Call).
    rewrite logged_nothing. js.
    rewrite (for_slot_same _ slotId _ (emptied slot));
      [by destruct once|by apply well_formed_indexed|exact after|by destruct slot].
Qed.

Lemma removeSound_twice_witness :
  let b := state_after (perform (LoadSound loads_well "Bath Sound" (Noise bath)) 3)
             (state_after (perform (UpdateVolume (-30 # 1)%Q) 3) mounted) in
  let slot :=
    {| id := 3; soundName := Some "Bath Sound"; soundDef := Some (Noise bath);
       isPlaying := true; isLoading := false; volume := (-30 # 1)%Q; isMuted := false;
       oscillator := None; noise := Some 0; player := None; filter := Some 1 |} in
  let once := state_after (removeSound 3) b in
  element (slots once) 3 = Some (emptied slot)
  /\ volume (emptied slot) = volume slot /\ isMuted (emptied slot) = isMuted slot
  /\ sources (emptied slot) = []
  /\ volumeControls once = volumeControls b
  /\ removeSound 3 once = (Returned tt, once).
Proof.
  intros b slot. apply (removeSound_twice b 3 slot).
  - do 2 apply reachable_perform. apply reachable_mounted.
  - vm_compute. reflexivity.
Defined.

(** Pausing a slot and resuming it (or the reverse) brings every slot
    back to what it was: the button stops the sources of the slot and
    starts the same ones again, without creating or disposing a node. *)
Theorem toggleSlot_twice (b : Board) (slotId : nat) (slot : SoundSlot) :
  reachable b -> element (slots b) slotId = Some slot ->
  let once := state_after (toggleSlot slotId) b in
  let twice := state_after (toggleSlot slotId) once in
  slots twice = slots b
  /\ volumeControls twice = volumeControls b
  /\ next_handle (world twice) = next_handle (world b)
  /\ new_calls (world b) (world twice)
     = if truthy (soundDef slot)
       then ((if isPlaying slot then Stop else Start) <$> sources slot)
            ++ ((if isPlaying slot then Start else Stop) <$> sources slot)
       else [].
Proof.
  intros known found once twice.
  pose proof (reachable_well_formed b known) as wf.
  pose proof (perform_well_formed ToggleSlot slotId b wf) as wf_once.
  change (state_after (perform ToggleSlot slotId) b) with once in wf_once.
  destruct (toggleSlot_slot b slotId slot wf found) as (_ & first & made_first & controls_first).
  fold once in first, made_first, controls_first.
  destruct (toggleSlot_slot once slotId _ wf_once first)
    as (_ & second & made_second & controls_second).
  fold twice in second, made_second, controls_second.
  pose proof (perform_extends ToggleSlot slotId b wf) as grows_first.
  pose proof (perform_extends ToggleSlot slotId once wf_once) as grows_second.
  cbn [perform] in grows_first, grows_second.
  fold once in grows_first. fold twice in grows_second.
  split_and!.
  - apply list_eq. intros i. change (element (slots twice) (Datatypes.S i)
                                     = element (slots b) (Datatypes.S i)).
    destruct (decide (Datatypes.S i = slotId)) as [<-|differs].
    + rewrite second, found. f_equal.
      destruct (truthy (soundDef slot)) eqn:chosen; [|by rewrite chosen].
      replace (truthy (soundDef (set_isPlaying (negb (isPlaying slot)) slot))) with true
        by by destruct slot.
      destruct slot as [? ? ? []]; reflexivity.
    + etransitivity; [apply (perform_elsewhere ToggleSlot slotId _ once wf_once differs)|].
      apply (perform_elsewhere ToggleSlot slotId _ b wf differs).
  - congruence.
  - subst once twice. unfold toggleSlot. js. rewrite found. js.
    repeat (split_on_test; js); try reflexivity.
    all: rewrite ?element_for_slot in * by by apply well_formed_indexed.
    all: rewrite ?Nat.eqb_refl, ?found in *; simplify_eq; js; by repeat (split_on_test; js).
  - apply new_calls_app. rewrite grows_second, grows_first, made_second, made_first.
    rewrite <- app_assoc. f_equal.
    destruct (truthy (soundDef slot)) eqn:chosen; [|by rewrite chosen].
    replace (truthy (soundDef (set_isPlaying (negb (isPlaying slot)) slot))) with true
      by by destruct slot.
    destruct slot as [? ? ? []]; reflexivity.
Qed.

Lemma toggleSlot_twice_witness :
  let b := state_after (perform (LoadSound loads_well "Green Noise" (Noise green)) 1) mounted in
  let twice := state_after (toggleSlot 1) (state_after (toggleSlot 1) b) in
  slots twice = slots b
  /\ volumeControls twice = volumeControls b
  /\ next_handle (world twice) = next_handle (world b)
  /\ new_calls (world b) (world twice) = [Stop 0; Start 0].
Proof.
  intros b.
  apply (toggleSlot_twice b 1
           {| id := 1; soundName := Some "Green Noise"; soundDef := Some (Noise green);
              isPlaying := true; isLoading := false; volume := (-12 # 1)%Q;
              isMuted := false; oscillator := None; noise := Some 0; player := None;
              filter := Some 1 |}).
  - apply reachable_perform, reachable_mounted.
  - vm_compute. reflexivity.
Defined.

(** *** Removing the mixer from the page *)

(** The cleanup of the mixer walks through the slots of the first
    render, which hold nothing: whatever the slots hold by now, no
    source and no filter is stopped or disposed.  Only the four volume
    nodes are disposed. *)
Theorem unmount_leaves_the_sources_running (b : Board) :
  reachable b -> unmount b = (Returned [0; 1; 2; 3], b).
Proof.
  intros known. destruct (reachable_lengths b known) as [_ four].
  unfold unmount. cbn [slots mounted foldr]. js.
  rewrite !release_run. js.
  change (release_calls (empty_slot 1)) with (@nil Call).
  change (release_calls (empty_slot 2)) with (@nil Call).
  change (release_calls (empty_slot 3)) with (@nil Call).
  change (release_calls (empty_slot 4)) with (@nil Call).
  rewrite !app_nil_r, four. by destruct b as [? ? []].
Qed.

Lemma unmount_leaves_the_sources_running_witness :
  let b := state_after (perform (LoadSound loads_well "Theta Waves" (Frequency 6)) 1) mounted in
  calls (world b) = [NewOscillator 0 6; Connect 0 (VolumeNode 0); Start 0]
  /\ unmount b = (Returned [0; 1; 2; 3], b).
Proof.
  intros b. split; [vm_compute; reflexivity|].
  apply unmount_leaves_the_sources_running.
  apply reachable_perform, reachable_mounted.
Defined.

(** *** What a load starts *)


Lemma release_calls_connect_nothing (slot : SoundSlot) (h : Handle) (target : Target) :
  Connect h target ∉ release_calls slot.
Proof.
  unfold release_calls.
  destruct (oscillator slot), (noise slot), (player slot), (filter slot); cbn [app];
    rewrite ?elem_of_cons, ?elem_of_nil; naive_solver.
Qed.






(** *** A generated sound that cannot be started *)



(** *** The fader *)

Lemma fader_percentage_bounds (y height : Q) :
  (0 <= fader_percentage y height <= 1)%Q.
Proof.
  unfold fader_percentage. split; [apply Q.le_max_l|].
  apply Q.max_lub; [done|apply Q.le_min_l].
Qed.







(** *** The mixer as its markup drives it *)

(** Every name that the selector lists stands for a sound, and none of
    them is the empty string or the frequency zero. *)
Lemma catalog_lookup (soundName : string) :
  soundName ∈ SOUNDS.*1 ->
  exists soundDef,
    lookup_sound SOUNDS soundName = Some soundDef
    /\ truthy (Some soundDef) = true /\ soundName <> "".
Proof.
  unfold SOUNDS. cbn [fmap list_fmap fst]. intros listed.
  repeat (apply elem_of_cons in listed as [->|listed];
          [eexists; split_and!; [vm_compute; reflexivity|reflexivity|discriminate]|]).
  by apply elem_of_nil in listed.
Qed.


(** A gesture that the markup offers is an operation on the slot. *)
Lemma gesture_perform (g : Gesture) (slotId : nat) (b : Board) (slot : SoundSlot) :
  element (slots b) slotId = Some slot -> offered slot g ->
  exists op, tame op /\ gesture g slotId b = perform op slotId b.
Proof.
  intros found available.
  destruct g as [env soundName| |clientY top height| |]; cbn [gesture offered] in *.
  - destruct available as [_ [->|listed]].
    + by exists RemoveSound.
    + destruct (catalog_lookup soundName listed) as (soundDef & entry & usable & named).
      exists (LoadSound env soundName soundDef). split; [done|].
      cbn [perform]. unfold handleSelectChange. rewrite entry, usable.
      by destruct (String.eqb_spec soundName "").
  - by exists ToggleSlot.
  - exists (UpdateVolume (-40 + fader_percentage (clientY - top) height * 40)%Q).
    split.
    + pose proof (fader_percentage_bounds (clientY - top) height) as [least most].
      cbn [tame]. split; lra.
    + cbn [perform]. unfold handleFaderMouseDown, handleMouseMove. js. by rewrite found.
  - by exists ToggleMute.
  - by exists RemoveSound.
Qed.

Lemma usable_reachable (b : Board) : usable b -> reachable b.
Proof.
  induction 1 as [|b slotId slot g _ known found available]; [apply reachable_mounted|].
  destruct (gesture_perform g slotId b slot found available) as (op & _ & same).
  unfold state_after. rewrite same. by apply reachable_perform.
Qed.

Lemma outcome_catalogued (h : Handle) (op : Operation) (slot slot' : SoundSlot) :
  tame op -> catalogued slot -> outcome h op slot slot' -> catalogued slot'.
Proof.
  unfold catalogued.
  destruct op as [env soundName soundDef| |newVolume| |]; cbn [outcome tame].
  - intros (named & entry & usable) _ [->| ->].
    + replace (SoundBoard.soundName (loaded soundName soundDef h slot))
        with (Some soundName) by by destruct soundDef.
      replace (SoundBoard.soundDef (loaded soundName soundDef h slot))
        with (Some soundDef) by by destruct soundDef.
      by split_and!.
    + reflexivity.
  - intros _ before ->. destruct (truthy (soundDef slot)) eqn:chosen.
    + destruct slot as [? [name|] def]; [|exact before].
      destruct before as (named & entry & _). by split_and!.
    + by rewrite chosen.
  - intros _ before ->. by destruct slot.
  - intros _ before ->. by destruct slot.
  - by intros _ _ ->.
Qed.

Lemma outcome_in_range (h : Handle) (op : Operation) (slot slot' : SoundSlot) :
  tame op -> in_range slot -> outcome h op slot slot' -> in_range slot'.
Proof.
  unfold in_range.
  destruct op as [env soundName soundDef| |newVolume| |]; cbn [outcome tame].
  - intros _ before [->| ->]; [by destruct soundDef|done].
  - intros _ before ->. by destruct (truthy (soundDef slot)), slot.
  - by intros bounds _ ->.
  - intros _ before ->. by destruct slot.
  - by intros _ before ->.
Qed.

Lemma usable_slots (b : Board) :
  usable b -> Forall (fun slot => catalogued slot /\ in_range slot) (slots b).
Proof.
  induction 1 as [|b slotId slot g known IH found available].
  - repeat (apply Forall_cons_2; [by split|]). apply Forall_nil_2.
  - destruct (gesture_perform g slotId b slot found available) as (op & gentle & same).
    unfold state_after. rewrite same.
    apply (perform_preserves _ op slotId b);
      [by apply reachable_well_formed, usable_reachable| |exact IH].
    intros before after _ [listed bounded] result. split.
    + by apply (outcome_catalogued (next_handle (world b)) op before).
    + by apply (outcome_in_range (next_handle (world b)) op before).
Qed.

(** However the faders are dragged, the volume of a slot stays between
    -40 and 0 decibels, and the volume node of the slot is at that level
    or, while the slot is muted, silent. *)
Theorem slot_volume_stays_in_range (b : Board) (slotId : nat) (slot : SoundSlot) :
  usable b -> element (slots b) slotId = Some slot ->
  (-40 <= volume slot <= 0)%Q
  /\ element (volumeControls b) slotId
     = Some (if isMuted slot then NegInfinity else Decibels (volume slot)).
Proof.
  intros known found. split.
  - destruct slotId as [|i]; [done|].
    by destruct (proj1 (Forall_lookup _ _) (usable_slots b known) i slot found).
  - apply well_formed_control; [|exact found].
    by apply reachable_well_formed, usable_reachable.
Qed.

Lemma slot_volume_stays_in_range_witness :
  let b := state_after (gesture PressMute 1)
             (state_after (gesture (ChooseSound loads_well "Alpha Waves") 1)
                (state_after (gesture (DragFader 500 100 192) 1) mounted)) in
  exists slot,
    element (slots b) 1 = Some slot
    /\ isMuted slot = true
    /\ (-40 <= volume slot <= 0)%Q
    /\ element (volumeControls b) 1
       = Some (if isMuted slot then NegInfinity else Decibels (volume slot)).
Proof.
  intros b.
  assert (usable b) as known.
  { eapply usable_gesture;
      [eapply usable_gesture;
         [eapply usable_gesture; [apply usable_mounted|reflexivity|reflexivity]
         |vm_compute; reflexivity|]
      |vm_compute; reflexivity|reflexivity].
    split; [reflexivity|]. right. vm_compute. repeat constructor. }
  eexists. split; [vm_compute; reflexivity|]. split; [reflexivity|].
  apply (slot_volume_stays_in_range b 1); [exact known|vm_compute; reflexivity].
Defined.


End MixerFacts.
(** ** More about the single player *)
Module TimerFacts.
Import SoundPlayer.
Import PlayerFacts.

Arguments unmount s /.

(** *** The state of the player between two events *)

Ltac no_interval :=
  match goal with
  | H : is_Some None |- _ => by destruct H
  end.

Ltac coherent_leaf :=
  unfold coherent, sources; js; cbv [option_list option_rect]; cbn [app length];
  split_and!; intros; try discriminate; try done; try lia; try no_interval; eauto.

Lemma toggleSound_coherent (env : Env) (p : Player) :
  coherent p -> coherent (state_after (toggleSound env) p).
Proof.
  intros (idle & stopped & flagged & registered & single & ticking).
  unfold toggleSound. js. destruct (isPlaying p) eqn:playing; js.
  - rewrite release_sources_run. js.
    destruct (timerIntervalRef p) as [timerId|] eqn:interval; js.
    + destruct registered as [callback ->]. cbn [List.filter fst]. rewrite Nat.eqb_refl.
      coherent_leaf.
    + rewrite registered. coherent_leaf.
  - destruct (stopped eq_refl) as [silent no_interval].
    rewrite no_interval in registered.
    assert (isPlayingRef p = false) as unflagged.
    { destruct (isPlayingRef p) eqn:flag; [|done]. destruct (flagged eq_refl). congruence. }
    rewrite release_sources_run. js.
    unfold play_frequency, play_noise, play_file, start_timer.
    repeat (split_on_test; js).
    all: rewrite ?registered, ?no_interval, ?unflagged, ?playing, ?idle in *.
    all: try discriminate.
    all: coherent_leaf.
Qed.

Lemma interval_fires_coherent (timerId : nat) (p : Player) :
  coherent p -> coherent (state_after (interval_fires timerId) p).
Proof.
  intros (idle & stopped & flagged & registered & single & ticking).
  unfold interval_fires, countdown_tick, countup_tick. js.
  destruct (timerIntervalRef p) as [running|] eqn:interval.
  - destruct registered as [callback registered]. rewrite registered.
    cbn [List.find fst].
    destruct (running =? timerId), callback; js.
    all: repeat (first [rewrite interval | rewrite release_sources_run | split_on_test]; js).
    all: rewrite ?registered; cbn [List.filter fst]; rewrite ?Nat.eqb_refl.
    all: unfold coherent, sources in *; js; rewrite ?interval, ?registered.
    all: cbv [option_list option_rect]; cbn [app length negb].
    all: split_and!; intros; try discriminate; try done; try lia; try no_interval; eauto.
  - rewrite registered. cbn [List.find]. js.
    unfold coherent. rewrite interval. by split_and!.
Qed.

Lemma perform_coherent (action : Action) (p : Player) :
  coherent p -> coherent (state_after (perform action) p).
Proof.
  destruct action as [env|value|duration|newVolume| |timerId]; cbn [perform].
  - apply toggleSound_coherent.
  - intros (idle & stopped & flagged & registered & single & ticking).
    unfold handleSoundChange. js. destruct (isPlaying p) eqn:playing; js.
    + rewrite release_sources_run. js.
      destruct (timerIntervalRef p) as [timerId|] eqn:interval; js.
      * destruct registered as [callback ->]. cbn [List.filter fst]. rewrite Nat.eqb_refl.
        coherent_leaf.
      * rewrite registered. coherent_leaf.
    + unfold coherent, sources in *. js. rewrite playing. by split_and!.
  - intros (idle & stopped & flagged & registered & single & ticking).
    unfold handleTimerChange. js.
    destruct (isPlaying p) eqn:playing; js; unfold coherent, sources in *; js;
      rewrite ?playing; by split_and!.
  - intros (idle & stopped & flagged & registered & single & ticking).
    unfold handleVolumeChange. js.
    destruct (isMuted p); js; unfold coherent, sources in *; js; by split_and!.
  - intros (idle & stopped & flagged & registered & single & ticking).
    unfold toggleMute. js.
    destruct (isMuted p); js; unfold coherent, sources in *; js; by split_and!.
  - apply interval_fires_coherent.
Qed.

Lemma reachable_coherent (p : Player) : reachable p -> coherent p.
Proof.
  induction 1 as [|p action _ IH]; [|by apply perform_coherent].
  unfold coherent. cbn. split_and!; try done; try lia.
Qed.

Lemma usable_player_reachable (p : Player) : usable p -> reachable p.
Proof.
  induction 1 as [|p action _ IH _]; [apply reachable_mounted|by apply reachable_perform].
Qed.

(** *** The player as its markup drives it *)

Lemma preset_positive (preset : Z) : Some preset ∈ TIMER_PRESETS.*2 -> (0 < preset)%Z.
Proof.
  unfold TIMER_PRESETS. cbn [fmap list_fmap snd]. rewrite !elem_of_cons, elem_of_nil.
  intros [[=]|[[= ->]|[[= ->]|[[= ->]|[[= ->]|[[= ->]|[[= ->]|[[= ->]|[]]]]]]]]]; lia.
Qed.

Lemma slider_in_range (newVolume : Z) :
  (-40 <= newVolume <= 0)%Z -> (-40 <= inject_Z newVolume <= 0)%Q.
Proof. intros [low high]. unfold Qle. cbn. lia. Qed.

Ltac same_timer :=
  repeat match goal with
         | H : Some _ = Some _ |- _ => injection H as <-
         | H : Some _ = None |- _ => discriminate H
         | H : None = Some _ |- _ => discriminate H
         end.

Ltac presentable_leaf :=
  unfold presentable in *; js; split_and!; intros; try discriminate; try done;
  try lia; eauto.

Lemma perform_presentable (action : Action) (p : Player) :
  coherent p -> presentable p -> offered p action ->
  presentable (state_after (perform action) p).
Proof.
  intros (idle & stopped & flagged & registered & single & ticking)
         (known & [low high] & [low' high'] & listed & bounded & kind) available.
  assert (match selectedTimerDuration p with
          | Some preset => (0 < preset)%Z
          | None => True
          end) as positive.
  { destruct (selectedTimerDuration p) as [preset|]; [|done]. by apply preset_positive. }
  destruct action as [env|value|duration|newVolume| |timerId]; cbn [perform offered] in *.
  - unfold toggleSound. js. destruct (isPlaying p) eqn:playing; js.
    + rewrite release_sources_run. js.
      destruct (timerIntervalRef p) as [timerId|] eqn:interval; js; presentable_leaf.
    + destruct (stopped eq_refl) as [silent no_interval].
      rewrite no_interval in registered.
      assert (isPlayingRef p = false) as unflagged.
      { destruct (isPlayingRef p) eqn:flag; [|done]. destruct (flagged eq_refl). congruence. }
      rewrite release_sources_run. js.
      unfold play_frequency, play_noise, play_file, start_timer.
      repeat (split_on_test; js).
      all: rewrite ?registered, ?no_interval, ?unflagged, ?playing, ?idle in *.
      all: try discriminate.
      all: unfold presentable; js;
        repeat match goal with H : selectedTimerDuration _ = _ |- _ => rewrite H in * end.
      all: split_and!; intros; same_timer; try done; try lia.
  - unfold handleSoundChange. js. destruct (isPlaying p) eqn:playing; js.
    + rewrite release_sources_run. js.
      destruct (timerIntervalRef p) as [timerId|] eqn:interval; js.
      all: unfold presentable; js; destruct (selectedTimerDuration p);
        split_and!; intros; try discriminate; try done; lia.
    + presentable_leaf.
  - destruct available as [playing offer]. unfold handleTimerChange. js.
    rewrite playing. js. destruct (stopped playing) as [_ no_interval].
    unfold presentable. js. rewrite no_interval.
    split_and!; intros; try discriminate; try done.
    destruct duration as [preset|]; [|done]. apply preset_positive in offer. lia.
  - unfold handleVolumeChange. js.
    destruct (isMuted p); js; unfold presentable; js; split_and!; try done;
      by apply slider_in_range.
  - unfold toggleMute. js. destruct (isMuted p); js; presentable_leaf.
  - unfold interval_fires, countdown_tick, countup_tick. js.
    destruct (timerIntervalRef p) as [running|] eqn:interval.
    + rewrite (kind running eq_refl). cbn [List.find fst].
      destruct (running =? timerId); [|by rewrite <- interval in *].
      destruct (selectedTimerDuration p) as [preset|] eqn:chosen; cbn [callback_for]; js.
      * repeat (first [rewrite interval | rewrite release_sources_run | split_on_test]; js).
        all: unfold presentable; js; rewrite ?interval, ?chosen.
        all: split_and!; intros; same_timer; try done; try lia.
        all: by rewrite (kind running eq_refl).
      * unfold presentable; js; rewrite ?interval, ?chosen.
        split_and!; intros; same_timer; try done; try lia.
        by rewrite (kind running eq_refl).
    + rewrite registered. cbn [List.find]. js. by rewrite <- interval in *.
Qed.

Lemma mounted_presentable : presentable mounted.
Proof.
  unfold presentable. cbn. split_and!; try done.
  - unfold SOUNDS. cbn [fmap list_fmap fst]. rewrite !elem_of_cons. naive_solver.
  - rewrite elem_of_cons. by left.
Qed.

Lemma usable_invariant (p : Player) : usable p -> coherent p /\ presentable p.
Proof.
  induction 1 as [|p action known [sound shown] available].
  - split; [apply reachable_coherent, reachable_mounted|apply mounted_presentable].
  - split; [by apply perform_coherent|by apply perform_presentable].
Qed.








(** The selected sound is always an entry of the catalog, so that the
    play button never finds its definition missing; the volume stays on
    the scale of the slider, and the volume node is at that volume or,
    while muted, silent. *)
Theorem player_shows_what_its_controls_offer (p : Player) :
  usable p ->
  (exists soundDef,
      lookup_sound SOUNDS (selectedSound p) = Some soundDef
      /\ truthy (Some soundDef) = true)
  /\ (-40 <= volume p <= 0)%Q
  /\ volumeControl p = (if isMuted p then NegInfinity else Decibels (volume p))
  /\ selectedTimerDuration p ∈ TIMER_PRESETS.*2.
Proof.
  intros known.
  destruct (usable_invariant p known) as [_ (listed & level & _ & preset & _)].
  split; [|split; [exact level|split; [reflexivity|exact preset]]].
  destruct (MixerFacts.catalog_lookup _ listed) as (soundDef & entry & usable & _).
  by exists soundDef.
Qed.

Lemma player_shows_what_its_controls_offer_witness :
  let p := state_after (perform ToggleMute)
             (state_after (perform (HandleVolumeChange (-33)))
                (state_after (perform (HandleSoundChange "Theta Waves")) mounted)) in
  (exists soundDef,
      lookup_sound SOUNDS (selectedSound p) = Some soundDef
      /\ truthy (Some soundDef) = true)
  /\ (-40 <= volume p <= 0)%Q
  /\ volumeControl p = (if isMuted p then NegInfinity else Decibels (volume p))
  /\ selectedTimerDuration p ∈ TIMER_PRESETS.*2.
Proof.
  apply player_shows_what_its_controls_offer.
  apply usable_perform; [|exact I].
  apply usable_perform; [|cbn; lia].
  apply usable_perform; [apply usable_mounted|vm_compute; repeat constructor].
Defined.

(** *** Removing the player from the page *)






(** *** Errors in the player *)

Lemma toggleSound_returns (env : Env) (p : Player) :
  result_of (toggleSound env) p = Returned tt.
Proof.
  unfold toggleSound. js. destruct (isPlaying p); js; rewrite release_sources_run; js.
  - by destruct (timerIntervalRef p).
  - unfold play_frequency, play_noise, play_file, start_timer.
    by repeat (split_on_test; js).
Qed.

(** No handler of the player lets an error out: a failure of
    [Tone.start], of a constructor or of the loading of a file is caught
    inside [toggleSound].  (The other calls on a node, [connect],
    [start], [stop] and [dispose], are taken to succeed, here as
    everywhere.) *)
Theorem handler_returns_normally (action : Action) (p : Player) :
  result_of (perform action) p = Returned tt.
Proof.
  destruct action as [env|value|duration|newVolume| |timerId]; cbn [perform].
  - apply toggleSound_returns.
  - unfold handleSoundChange. js. destruct (isPlaying p); js; [|done].
    rewrite release_sources_run. js. by destruct (timerIntervalRef p).
  - unfold handleTimerChange. js. by destruct (isPlaying p).
  - unfold handleVolumeChange. js. by destruct (isMuted p).
  - unfold toggleMute. js. by destruct (isMuted p).
  - unfold interval_fires, countdown_tick, countup_tick. js.
    by repeat (first [rewrite release_sources_run | split_on_test]; js).
Qed.

Lemma released_nothing (p : Player) : sources p = [] -> released p = p.
Proof.
  unfold sources, released, release_calls.
  destruct p as [? ? ? [] [] [] ? ? ? ? ? ? ? []]; cbn; try done.
  intros _. by rewrite app_nil_r.
Qed.

(** When the audio context cannot be started, pressing Play does
    nothing at all: no node is created, nothing is shown, and the player
    stays stopped. *)
Theorem refused_context_changes_nothing (env : Env) (p : Player) (error : JsValue) :
  usable p -> isPlaying p = false -> context_start env = Some error ->
  toggleSound env p = (Returned tt, p).
Proof.
  intros known stopped refused.
  destruct (usable_invariant p known) as [(_ & idle & _) _].
  destruct (idle stopped) as [silent _].
  pose proof (toggleSound_returns env p) as returned.
  pose proof (toggleSound_without_context env p error stopped refused) as after.
  rewrite (released_nothing p silent) in after.
  unfold result_of in returned. unfold state_after in after.
  destruct (toggleSound env p) as [result state]. cbn in *. congruence.
Qed.

Lemma refused_context_changes_nothing_witness :
  let env := {| context_start := Some (ErrorObject "The AudioContext was not allowed to start");
                construct := None; fetch := None; loaded_at := fun _ => true;
                duration := Finite (180 # 1)%Q |} in
  toggleSound env mounted = (Returned tt, mounted).
Proof.
  intros env.
  apply (refused_context_changes_nothing env mounted
           (ErrorObject "The AudioContext was not allowed to start")).
  - apply usable_mounted.
  - reflexivity.
  - reflexivity.
Defined.



(** *** The timer display *)

Lemma toString_positive (n : Z) :
  (0 <= n)%Z ->
  exists digits, Z.to_int n = Decimal.Pos digits /\ digits <> Decimal.Nil.
Proof.
  intros nonnegative. destruct n as [|n|n]; [| |lia].
  - exists (Decimal.D0 Decimal.Nil). by split.
  - exists (Pos.to_uint n). split; [reflexivity|].
    intros empty. pose proof (DecimalPos.Unsigned.to_uint_nonnil n). congruence.
Qed.







Lemma toString_length (n : Z) : (0 <= n)%Z -> 1 <= String.length (toString n).
Proof.
  intros nonnegative.
  destruct (toString_positive n nonnegative) as (digits & shape & nonempty).
  unfold toString. rewrite shape. destruct digits; try done; cbn; lia.
Qed.




(** *** The log of the player *)

Lemma filters_of_app (cs new : list Call) :
  filters_of (cs ++ new) = filters_of cs ++ filters_of new.
Proof. unfold filters_of. apply omap_app. Qed.

Lemma filters_of_logged (cs : list Call) (h : Handle) :
  h ∈ filters_of cs -> exists c, c ∈ cs /\ h ∈ subjects c.
Proof.
  unfold filters_of. rewrite list_elem_of_omap. intros (c & logged & shape).
  exists c. split; [exact logged|]. destruct c; try discriminate.
  injection shape as ->. apply list_elem_of_here.
Qed.

Lemma clean_nil : clean [].
Proof. by intros i j h c ?. Qed.

(** A call that touches no node can follow anything. *)
Lemma clean_cons (c : Call) (rest : list Call) :
  (forall h, c = Dispose h -> forall c', c' ∈ rest -> h ∉ subjects c') ->
  clean rest -> clean (c :: rest).
Proof.
  intros first others i j h c' disposed later before.
  destruct j as [|j]; [lia|]. cbn in later.
  destruct i as [|i].
  - cbn in disposed. injection disposed as ->.
    apply (first h eq_refl). by eapply list_elem_of_lookup_2.
  - cbn in disposed. apply (others i j h c' disposed later). lia.
Qed.

(** What an event may add to a tidy log. *)
Lemma tidy_extend (p p' : Player) (new : list Call) :
  tidy p ->
  calls (world p') = calls (world p) ++ new ->
  next_handle (world p) <= next_handle (world p') ->
  Forall (fun c => forall h, h ∈ subjects c ->
                     h ∈ sources p \/ next_handle (world p) <= h < next_handle (world p'))
         new ->
  clean new ->
  (forall h, h ∈ sources p' ->
     (h ∈ sources p \/ next_handle (world p) <= h < next_handle (world p'))
     /\ (Dispose h ∉ new) /\ (h ∉ filters_of new)) ->
  (forall h, h ∈ filters_of new -> next_handle (world p) <= h /\ (Dispose h ∉ new)) ->
  tidy p'.
Proof.
  intros (bounded & ordered & held & kept) grows_log grows touched fresh attached filters.
  assert (forall c h, c ∈ new -> h ∈ subjects c ->
            h ∈ sources p \/ next_handle (world p) <= h < next_handle (world p'))
    as touched'.
  { intros c h inside. by apply (proj1 (Forall_forall _ _) touched c). }
  unfold tidy. rewrite grows_log. split_and!.
  - intros c h [old|added]%elem_of_app subject.
    + pose proof (bounded c h old subject). lia.
    + destruct (touched' c h added subject) as [mine|created]; [|lia].
      destruct (held h mine). lia.
  - intros i j h c disposed later before.
    destruct (decide (j < length (calls (world p)))) as [early|late].
    + rewrite lookup_app_l in disposed by lia. rewrite lookup_app_l in later by done.
      by apply (ordered i j h c).
    + rewrite lookup_app_r in later by lia.
      destruct (decide (i < length (calls (world p)))) as [early|late'].
      * rewrite lookup_app_l in disposed by done.
        intros subject.
        pose proof (list_elem_of_lookup_2 _ _ _ disposed) as old.
        pose proof (list_elem_of_lookup_2 _ _ _ later) as added.
        destruct (touched' c h added subject) as [mine|created].
        -- by destruct (held h mine) as (_ & live & _).
        -- pose proof (bounded (Dispose h) h old ltac:(apply list_elem_of_here)). lia.
      * rewrite lookup_app_r in disposed by lia.
        apply (fresh _ _ h c disposed later). lia.
  - intros h inside. destruct (attached h inside) as (origin & live & plain).
    rewrite elem_of_app, filters_of_app, elem_of_app.
    destruct origin as [mine|created].
    + destruct (held h mine) as (below & alive & no_filter).
      split_and!; [lia|naive_solver|].
      intros [old|added]; [done|]. destruct (filters h added). lia.
    + split_and!; [lia| |].
      * intros [old|added]; [|done].
        pose proof (bounded (Dispose h) h old ltac:(apply list_elem_of_here)). lia.
      * intros [old|added]; [|done].
        destruct (filters_of_logged _ h old) as (c & logged & subject).
        pose proof (bounded c h logged subject). lia.
  - intros h. rewrite filters_of_app, !elem_of_app. intros [old|added] [before|after].
    + by apply (kept h).
    + destruct (touched' (Dispose h) h after ltac:(apply list_elem_of_here))
        as [mine|created].
      * by destruct (held h mine) as (_ & _ & no_filter).
      * destruct (filters_of_logged _ h old) as (c & logged & subject).
        pose proof (bounded c h logged subject). lia.
    + destruct (filters h added) as [above _].
      pose proof (bounded (Dispose h) h before ltac:(apply list_elem_of_here)). lia.
    + by destruct (filters h added).
Qed.

(** The refs of a player that holds at most one source. *)
Lemma one_source (p : Player) :
  length (sources p) <= 1 ->
  (oscillatorRef p = None /\ noiseRef p = None /\ playerRef p = None)
  \/ (exists h, oscillatorRef p = Some h /\ noiseRef p = None /\ playerRef p = None)
  \/ (exists h, oscillatorRef p = None /\ noiseRef p = Some h /\ playerRef p = None)
  \/ (exists h, oscillatorRef p = None /\ noiseRef p = None /\ playerRef p = Some h).
Proof.
  unfold sources.
  destruct (oscillatorRef p), (noiseRef p), (playerRef p);
    cbv [option_list option_rect]; cbn [app length]; intros ?; try lia; naive_solver.
Qed.

Ltac refute :=
  let bad := fresh "bad" in
  intros bad; destruct_or? bad; try discriminate bad; try done;
  try (injection bad; intros; lia); try lia.

Ltac member_step :=
  rewrite ?elem_of_cons, ?elem_of_nil;
  let inside := fresh "inside" in
  intros inside; destruct_or? inside; try done; subst;
  split_and?;
  first [ done | lia | right; lia | by left; left | by left | refute; fail
        | naive_solver lia ].

Ltac touched_leaf :=
  repeat first
    [ apply Forall_nil_2
    | apply Forall_cons_2;
      [ let h := fresh "h" in
        intros h; cbn [subjects]; unfold sources; js;
        repeat match goal with H : _ = Some _ |- _ => rewrite H end;
        repeat match goal with H : _ = None |- _ => rewrite H end;
        cbv [option_list option_rect]; cbn [app]; member_step | ] ].

Ltac clean_leaf :=
  repeat first
    [ apply clean_nil
    | apply clean_cons;
      [ let h := fresh "h" in
        let shape := fresh "shape" in
        let c := fresh "c" in
        intros h shape; try discriminate shape; injection shape as <-;
        intros c; cbn [subjects]; rewrite ?elem_of_cons, ?elem_of_nil;
        intros inside; repeat (destruct inside as [->|inside]); try done;
        cbn [subjects]; member_step | ] ].

Ltac sources_leaf :=
  let h := fresh "h" in
  intros h; unfold sources, filters_of; js;
  repeat match goal with H : _ = Some _ |- _ => rewrite H end;
  repeat match goal with H : _ = None |- _ => rewrite H end;
  cbv [option_list option_rect]; cbn [app omap list_omap]; member_step.

Ltac filters_leaf :=
  let h := fresh "h" in
  intros h; unfold filters_of; cbn [app omap list_omap]; member_step.

Ltac spend :=
  js; rewrite ?release_sources_run; js; unfold release_calls;
  cbn [oscillatorRef noiseRef playerRef app].

Ltac tidy_leaf :=
  eapply tidy_extend;
  [ eassumption
  | js; first [ rewrite <- ?app_assoc; cbn [app]; reflexivity
              | symmetry; apply app_nil_r ]
  | js; lia
  | js; touched_leaf
  | clean_leaf
  | js; sources_leaf
  | js; filters_leaf ].

Ltac open_player p single :=
  destruct (one_source p single)
    as [(osc & gen & file)|[(a & osc & gen & file)|[(a & osc & gen & file)
                                                    |(a & osc & gen & file)]]];
  destruct p as [playing loading sel o g f vol muted prev t dur tref pref w];
  cbn [isPlaying isLoading oscillatorRef noiseRef playerRef timerIntervalRef
       isPlayingRef isMuted world] in *; subst.

Lemma toggleSound_tidy (env : Env) (p : Player) :
  coherent p -> tidy p -> tidy (state_after (toggleSound env) p).
Proof.
  intros (idle & stopped & flagged & registered & single & ticking) neat.
  open_player p single.
  all: unfold toggleSound; js; destruct playing; js.
  all: try (destruct (stopped eq_refl) as [silent no_interval]; cbv in silent;
            try discriminate silent).
  2: { clear stopped flagged registered single ticking silent. subst tref. spend.
       unfold play_frequency, play_noise, play_file, start_timer.
       repeat (split_on_test; spend).
       all: try discriminate.
       all: tidy_leaf. }
  all: clear stopped flagged registered single ticking.
  all: destruct tref as [timerId|]; spend; tidy_leaf.
Qed.


Lemma interval_fires_tidy (timerId : nat) (p : Player) :
  coherent p -> tidy p -> tidy (state_after (interval_fires timerId) p).
Proof.
  intros (idle & stopped & flagged & registered & single & ticking) neat.
  open_player p single.
  all: unfold interval_fires, countdown_tick, countup_tick; js.
  all: destruct tref as [running|];
    [destruct registered as [callback registered]|]; rewrite registered;
    cbn [List.find fst]; [destruct (running =? timerId), callback|]; js.
  all: clear stopped flagged registered single ticking.
  all: repeat (first [rewrite release_sources_run | split_on_test]; spend).
  all: try discriminate.
  all: tidy_leaf.
Qed.

Lemma perform_tidy (action : Action) (p : Player) :
  coherent p -> tidy p -> tidy (state_after (perform action) p).
Proof.
  destruct action as [env|value|duration|newVolume| |timerId]; cbn [perform].
  - apply toggleSound_tidy.
  - intros (idle & stopped & flagged & registered & single & ticking) neat.
    open_player p single.
    all: clear stopped flagged registered single ticking.
    all: unfold handleSoundChange; js; destruct playing; js.
    all: try (destruct tref as [timerId|]); spend.
    all: tidy_leaf.
  - intros (idle & stopped & flagged & registered & single & ticking) neat.
    open_player p single.
    all: clear stopped flagged registered single ticking.
    all: unfold handleTimerChange; js; destruct playing; js.
    all: tidy_leaf.
  - intros (idle & stopped & flagged & registered & single & ticking) neat.
    open_player p single.
    all: clear stopped flagged registered single ticking.
    all: unfold handleVolumeChange; js; destruct muted; js.
    all: tidy_leaf.
  - intros (idle & stopped & flagged & registered & single & ticking) neat.
    open_player p single.
    all: clear stopped flagged registered single ticking.
    all: unfold toggleMute; js; destruct muted; js.
    all: tidy_leaf.
  - apply interval_fires_tidy.
Qed.

Lemma mounted_tidy : tidy mounted.
Proof.
  unfold tidy, clean. cbn. split_and!; intros *; rewrite ?elem_of_nil, ?lookup_nil; done.
Qed.

Lemma reachable_tidy (p : Player) : reachable p -> tidy p.
Proof.
  induction 1 as [|p action known IH]; [apply mounted_tidy|].
  apply perform_tidy; [by apply reachable_coherent|exact IH].
Qed.

Lemma usable_tidy (p : Player) : usable p -> tidy p.
Proof. intros known. by apply reachable_tidy, usable_player_reachable. Qed.

(** *** Nodes that were disposed, and nodes that never are *)



(** The filter that the green noise and the bath sound are played
    through is held by no ref of the player, and it is never disposed:
    not when the sound is stopped or changed, and not when the player is
    removed from the page. *)
Theorem noise_filter_is_never_disposed (p : Player) (h : Handle) :
  usable p ->
  h ∈ filters_of (calls (world p)) ->
  Dispose h ∉ calls (world (state_after unmount p)).
Proof.
  intros known made.
  destruct (usable_tidy p known) as (_ & _ & held & kept).
  pose proof (kept h made) as live.
  assert (h ∉ sources p) as apart.
  { intros inside. by destruct (held h inside) as (_ & _ & other). }
  clear held kept known made.
  unfold unmount, sources in *. js.
  destruct p as [playing loading sel o g f vol muted prev t dur tref pref w].
  cbn [oscillatorRef noiseRef playerRef timerIntervalRef world] in *.
  destruct tref, o, g, f; js; revert apart; cbv [option_list option_rect]; cbn [app];
    rewrite ?elem_of_app, ?elem_of_cons, ?elem_of_nil; naive_solver.
Qed.

Lemma noise_filter_is_never_disposed_witness :
  let p := state_after (perform (ToggleSound loads_well))
             (state_after (perform (ToggleSound loads_well))
                (state_after (perform (HandleSoundChange "Green Noise")) mounted)) in
  isPlaying p = false /\ 1 ∈ filters_of (calls (world p))
  /\ Dispose 1 ∉ calls (world (state_after unmount p)).
Proof.
  intros p. split; [vm_compute; reflexivity|].
  assert (1 ∈ filters_of (calls (world p))) as made by (vm_compute; repeat constructor).
  split; [exact made|].
  apply noise_filter_is_never_disposed; [|exact made].
  apply usable_perform; [|vm_compute; reflexivity].
  apply usable_perform; [|vm_compute; reflexivity].
  apply usable_perform; [apply usable_mounted|vm_compute; repeat constructor].
Defined.
End TimerFacts.

(** ** The page *)
Module PageFacts.
Import App.

(** However often the background changes, by the interval or by the
    button, [currentScenery] is an index of [SCENERIES], so that the page
    always has a scenery to draw; the sceneries come round in order, and
    after as many changes as there are sceneries the first is back. *)
Theorem scenery_index_stays_valid (changes : nat) :
  currentScenery changes = changes mod length SCENERIES
  /\ is_Some (SCENERIES !! currentScenery changes)
  /\ currentScenery (changes + length SCENERIES) = currentScenery changes.
Proof.
  assert (forall n, currentScenery n = n mod length SCENERIES) as round.
  { induction n as [|n IH]; [done|].
    cbn [currentScenery]. unfold next_scenery. rewrite IH.
    rewrite Nat.Div0.add_mod_idemp_l. f_equal. lia. }
  split_and!.
  - apply round.
  - apply lookup_lt_is_Some. rewrite round. apply Nat.mod_upper_bound. done.
  - rewrite !round. rewrite <- Nat.Div0.add_mod_idemp_r, Nat.Div0.mod_same.
    by rewrite Nat.add_0_r.
Qed.

End PageFacts.
